(** * A line-diff utility: normalisation, ndiff and the save path

    Shallow embedding of [file_diff_gui.py]: the line normaliser
    [normalize_lines], the comparison [DiffGUI.compare] with the
    [difflib.ndiff] computation it calls (CPython 3.11's [difflib]:
    [SequenceMatcher] and [Differ]), and [DiffGUI.save_diff].

    Data model.  A Python [str] is a list of Unicode code points
    ([pystr], code points as [N]); a list of lines is a [list pystr].
    Indices, lengths and counts are Python integers that never go below
    zero here; they are [nat], and the two places where the source
    subtracts ([j-1] as a dictionary key, [i-k+1]) are written out.
    Dictionaries are [gmap]s, sets are [gset]s.  Python floats are IEEE
    binary64 numbers: the primitive [float] type.  Reading a list out of
    range raises in Python: such reads return [None] in the option
    monad. *)

From Stdlib Require Import Floats Uint63 Ascii String.
From stdpp Require Import gmap list sorting pretty.

#[local] Set Warnings "-inexact-float,-clear-no-such-hyp".

(** ** Python strings *)

Abbreviation pystr := (list N).

(** A literal of ASCII characters as its code points. *)
Definition str (s : string) : pystr :=
  map N_of_ascii (list_ascii_of_string s).

(** [Py_UNICODE_ISSPACE]: the code points Unicode 14 gives the
    bidirectional class WS, B or S, or the category Zs. *)
Definition isspace (c : N) : bool :=
  ((9 <=? c) && (c <=? 13) || (28 <=? c) && (c <=? 32)
   || (c =? 133) || (c =? 160) || (c =? 5760)
   || (8192 <=? c) && (c <=? 8202)
   || (c =? 8232) || (c =? 8233) || (c =? 8239) || (c =? 8287)
   || (c =? 12288))%N.

(** [str.split()] without a separator: the words between runs of
    white space; [word] is the word being read ([[]] between words). *)
Fixpoint split_from (word : pystr) (s : pystr) : list pystr :=
  match s with
  | [] => match word with [] => [] | _ => [word] end
  | c :: s' =>
      if isspace c then
        match word with
        | [] => split_from [] s'
        | _ => word :: split_from [] s'
        end
      else split_from (word ++ [c]) s'
  end.

Definition split (s : pystr) : list pystr := split_from [] s.

(** [sep.join(parts)]. *)
Fixpoint join (sep : pystr) (parts : list pystr) : pystr :=
  match parts with
  | [] => []
  | [p] => p
  | p :: ps => p ++ sep ++ join sep ps
  end.

(** [s.lstrip()], [s.rstrip()] and [s.strip()]: white space taken off
    the ends. *)
Fixpoint lstrip (s : pystr) : pystr :=
  match s with
  | [] => []
  | c :: s' => if isspace c then lstrip s' else s
  end.

Fixpoint rstrip (s : pystr) : pystr :=
  match s with
  | [] => []
  | c :: s' =>
      match rstrip s' with
      | [] => if isspace c then [] else [c]
      | r => c :: r
      end
  end.

Definition strip (s : pystr) : pystr := rstrip (lstrip s).

(** ** Unicode case folding

    [str.casefold] applies the full case folding of the Unicode
    character database (CaseFolding.txt, statuses C and F; version
    14.0.0 in CPython 3.11).  [casefold_runs] holds the one-to-one
    foldings as runs [(first, count, stride, target)]: the code points
    [first + k * stride], [k < count], fold to [target + k * stride].
    [casefold_full] holds the foldings to several code points. *)

Definition casefold_runs : list (N * N * N * N) :=
  [
   (65, 26, 1, 97); (181, 1, 1, 956); (192, 23, 1, 224); (216, 7, 1, 248);
   (256, 24, 2, 257); (306, 3, 2, 307); (313, 8, 2, 314); (330, 23, 2, 331);
   (376, 1, 1, 255); (377, 3, 2, 378); (383, 1, 1, 115); (385, 1, 1, 595);
   (386, 2, 2, 387); (390, 1, 1, 596); (391, 1, 1, 392); (393, 2, 1, 598);
   (395, 1, 1, 396); (398, 1, 1, 477); (399, 1, 1, 601); (400, 1, 1, 603);
   (401, 1, 1, 402); (403, 1, 1, 608); (404, 1, 1, 611); (406, 1, 1, 617);
   (407, 1, 1, 616); (408, 1, 1, 409); (412, 1, 1, 623); (413, 1, 1, 626);
   (415, 1, 1, 629); (416, 3, 2, 417); (422, 1, 1, 640); (423, 1, 1, 424);
   (425, 1, 1, 643); (428, 1, 1, 429); (430, 1, 1, 648); (431, 1, 1, 432);
   (433, 2, 1, 650); (435, 2, 2, 436); (439, 1, 1, 658); (440, 1, 1, 441);
   (444, 1, 1, 445); (452, 1, 1, 454); (453, 1, 1, 454); (455, 1, 1, 457);
   (456, 1, 1, 457); (458, 1, 1, 460); (459, 9, 2, 460); (478, 9, 2, 479);
   (497, 1, 1, 499); (498, 2, 2, 499); (502, 1, 1, 405); (503, 1, 1, 447);
   (504, 20, 2, 505); (544, 1, 1, 414); (546, 9, 2, 547); (570, 1, 1, 11365);
   (571, 1, 1, 572); (573, 1, 1, 410); (574, 1, 1, 11366); (577, 1, 1, 578);
   (579, 1, 1, 384); (580, 1, 1, 649); (581, 1, 1, 652); (582, 5, 2, 583);
   (837, 1, 1, 953); (880, 2, 2, 881); (886, 1, 1, 887); (895, 1, 1, 1011);
   (902, 1, 1, 940); (904, 3, 1, 941); (908, 1, 1, 972); (910, 2, 1, 973);
   (913, 17, 1, 945); (931, 9, 1, 963); (962, 1, 1, 963); (975, 1, 1, 983);
   (976, 1, 1, 946); (977, 1, 1, 952); (981, 1, 1, 966); (982, 1, 1, 960);
   (984, 12, 2, 985); (1008, 1, 1, 954); (1009, 1, 1, 961);
   (1012, 1, 1, 952); (1013, 1, 1, 949); (1015, 1, 1, 1016);
   (1017, 1, 1, 1010); (1018, 1, 1, 1019); (1021, 3, 1, 891);
   (1024, 16, 1, 1104); (1040, 32, 1, 1072); (1120, 17, 2, 1121);
   (1162, 27, 2, 1163); (1216, 1, 1, 1231); (1217, 7, 2, 1218);
   (1232, 48, 2, 1233); (1329, 38, 1, 1377); (4256, 38, 1, 11520);
   (4295, 1, 1, 11559); (4301, 1, 1, 11565); (5112, 6, 1, 5104);
   (7296, 1, 1, 1074); (7297, 1, 1, 1076); (7298, 1, 1, 1086);
   (7299, 2, 1, 1089); (7301, 1, 1, 1090); (7302, 1, 1, 1098);
   (7303, 1, 1, 1123); (7304, 1, 1, 42571); (7312, 43, 1, 4304);
   (7357, 3, 1, 4349); (7680, 75, 2, 7681); (7835, 1, 1, 7777);
   (7840, 48, 2, 7841); (7944, 8, 1, 7936); (7960, 6, 1, 7952);
   (7976, 8, 1, 7968); (7992, 8, 1, 7984); (8008, 6, 1, 8000);
   (8025, 4, 2, 8017); (8040, 8, 1, 8032); (8120, 2, 1, 8112);
   (8122, 2, 1, 8048); (8126, 1, 1, 953); (8136, 4, 1, 8050);
   (8152, 2, 1, 8144); (8154, 2, 1, 8054); (8168, 2, 1, 8160);
   (8170, 2, 1, 8058); (8172, 1, 1, 8165); (8184, 2, 1, 8056);
   (8186, 2, 1, 8060); (8486, 1, 1, 969); (8490, 1, 1, 107);
   (8491, 1, 1, 229); (8498, 1, 1, 8526); (8544, 16, 1, 8560);
   (8579, 1, 1, 8580); (9398, 26, 1, 9424); (11264, 48, 1, 11312);
   (11360, 1, 1, 11361); (11362, 1, 1, 619); (11363, 1, 1, 7549);
   (11364, 1, 1, 637); (11367, 3, 2, 11368); (11373, 1, 1, 593);
   (11374, 1, 1, 625); (11375, 1, 1, 592); (11376, 1, 1, 594);
   (11378, 1, 1, 11379); (11381, 1, 1, 11382); (11390, 2, 1, 575);
   (11392, 50, 2, 11393); (11499, 2, 2, 11500); (11506, 1, 1, 11507);
   (42560, 23, 2, 42561); (42624, 14, 2, 42625); (42786, 7, 2, 42787);
   (42802, 31, 2, 42803); (42873, 2, 2, 42874); (42877, 1, 1, 7545);
   (42878, 5, 2, 42879); (42891, 1, 1, 42892); (42893, 1, 1, 613);
   (42896, 2, 2, 42897); (42902, 10, 2, 42903); (42922, 1, 1, 614);
   (42923, 1, 1, 604); (42924, 1, 1, 609); (42925, 1, 1, 620);
   (42926, 1, 1, 618); (42928, 1, 1, 670); (42929, 1, 1, 647);
   (42930, 1, 1, 669); (42931, 1, 1, 43859); (42932, 8, 2, 42933);
   (42948, 1, 1, 42900); (42949, 1, 1, 642); (42950, 1, 1, 7566);
   (42951, 2, 2, 42952); (42960, 1, 1, 42961); (42966, 2, 2, 42967);
   (42997, 1, 1, 42998); (43888, 80, 1, 5024); (65313, 26, 1, 65345);
   (66560, 40, 1, 66600); (66736, 36, 1, 66776); (66928, 11, 1, 66967);
   (66940, 15, 1, 66979); (66956, 7, 1, 66995); (66964, 2, 1, 67003);
   (68736, 51, 1, 68800); (71840, 32, 1, 71872); (93760, 32, 1, 93792);
   (125184, 34, 1, 125218)
  ]%N.

Definition casefold_full : list (N * list N) :=
  [
   (223, [115; 115]); (304, [105; 775]); (329, [700; 110]);
   (496, [106; 780]); (912, [953; 776; 769]); (944, [965; 776; 769]);
   (1415, [1381; 1410]); (7830, [104; 817]); (7831, [116; 776]);
   (7832, [119; 778]); (7833, [121; 778]); (7834, [97; 702]);
   (7838, [115; 115]); (8016, [965; 787]); (8018, [965; 787; 768]);
   (8020, [965; 787; 769]); (8022, [965; 787; 834]); (8064, [7936; 953]);
   (8065, [7937; 953]); (8066, [7938; 953]); (8067, [7939; 953]);
   (8068, [7940; 953]); (8069, [7941; 953]); (8070, [7942; 953]);
   (8071, [7943; 953]); (8072, [7936; 953]); (8073, [7937; 953]);
   (8074, [7938; 953]); (8075, [7939; 953]); (8076, [7940; 953]);
   (8077, [7941; 953]); (8078, [7942; 953]); (8079, [7943; 953]);
   (8080, [7968; 953]); (8081, [7969; 953]); (8082, [7970; 953]);
   (8083, [7971; 953]); (8084, [7972; 953]); (8085, [7973; 953]);
   (8086, [7974; 953]); (8087, [7975; 953]); (8088, [7968; 953]);
   (8089, [7969; 953]); (8090, [7970; 953]); (8091, [7971; 953]);
   (8092, [7972; 953]); (8093, [7973; 953]); (8094, [7974; 953]);
   (8095, [7975; 953]); (8096, [8032; 953]); (8097, [8033; 953]);
   (8098, [8034; 953]); (8099, [8035; 953]); (8100, [8036; 953]);
   (8101, [8037; 953]); (8102, [8038; 953]); (8103, [8039; 953]);
   (8104, [8032; 953]); (8105, [8033; 953]); (8106, [8034; 953]);
   (8107, [8035; 953]); (8108, [8036; 953]); (8109, [8037; 953]);
   (8110, [8038; 953]); (8111, [8039; 953]); (8114, [8048; 953]);
   (8115, [945; 953]); (8116, [940; 953]); (8118, [945; 834]);
   (8119, [945; 834; 953]); (8124, [945; 953]); (8130, [8052; 953]);
   (8131, [951; 953]); (8132, [942; 953]); (8134, [951; 834]);
   (8135, [951; 834; 953]); (8140, [951; 953]); (8146, [953; 776; 768]);
   (8147, [953; 776; 769]); (8150, [953; 834]); (8151, [953; 776; 834]);
   (8162, [965; 776; 768]); (8163, [965; 776; 769]); (8164, [961; 787]);
   (8166, [965; 834]); (8167, [965; 776; 834]); (8178, [8060; 953]);
   (8179, [969; 953]); (8180, [974; 953]); (8182, [969; 834]);
   (8183, [969; 834; 953]); (8188, [969; 953]); (64256, [102; 102]);
   (64257, [102; 105]); (64258, [102; 108]); (64259, [102; 102; 105]);
   (64260, [102; 102; 108]); (64261, [115; 116]); (64262, [115; 116]);
   (64275, [1396; 1398]); (64276, [1396; 1381]); (64277, [1396; 1387]);
   (64278, [1406; 1398]); (64279, [1396; 1389])
  ]%N.

Definition in_run (c : N) (r : N * N * N * N) : bool :=
  let '(first, count, stride, _) := r in
  ((first <=? c) && (c <? first + count * stride)
   && ((c - first) mod stride =? 0))%N.

Definition fold_char (c : N) : pystr :=
  match find (λ e, N.eqb (fst e) c) casefold_full with
  | Some (_, folded) => folded
  | None =>
      match find (in_run c) casefold_runs with
      | Some (first, _, _, target) => [(target + (c - first))%N]
      | None => [c]
      end
  end.

Definition casefold (s : pystr) : pystr := flat_map fold_char s.

(** The code points that have a folding of their own. *)
Definition run_sources (r : N * N * N * N) : list N :=
  let '(first, count, stride, _) := r in
  (λ k, first + N.of_nat k * stride)%N <$> seq 0 (N.to_nat count).

Definition casefold_sources : list N :=
  (fst <$> casefold_full) ++ flat_map run_sources casefold_runs.

(** What the normaliser needs of one code point: its folding folds to
    itself; white space folds to itself; other code points fold to a
    non-empty string without white space. *)
Definition fold_char_ok (c : N) : bool :=
  bool_decide (casefold (fold_char c) = fold_char c)
  && (if isspace c then bool_decide (fold_char c = [c])
      else forallb (λ x, negb (isspace x)) (fold_char c)
           && negb (bool_decide (fold_char c = []))).

(** ** The normaliser *)

(** The body of the loop of [normalize_lines], for one line. *)
Definition normalize_line (ignore_case ignore_ws : bool) (line : pystr)
  : pystr :=
  let s := line in
  let s := if ignore_ws then join (str " ") (split s) else s in
  let s := if ignore_case then casefold s else s in
  s.

Definition normalize_lines (lines : list pystr) (ignore_case ignore_ws : bool)
  : list pystr :=
  foldl (λ norm line, norm ++ [normalize_line ignore_case ignore_ws line])
        [] lines.

(** The normaliser in the words of the specification: every maximal run
    of white space becomes one space, leading and trailing white space
    is stripped, and the result is case folded. *)
Fixpoint collapse_runs (s : pystr) : pystr :=
  match s with
  | [] => []
  | c :: s' =>
      if isspace c then
        match s' with
        | [] => [32%N]
        | c' :: _ => if isspace c' then collapse_runs s'
                     else 32%N :: collapse_runs s'
        end
      else c :: collapse_runs s'
  end.

Definition spec_normalize_line (ignore_case ignore_ws : bool) (line : pystr)
  : pystr :=
  let s := if ignore_ws then lstrip (rstrip (collapse_runs line)) else line in
  if ignore_case then casefold s else s.

(** [s.startswith(prefix)]. *)
Fixpoint startswith (s prefix : pystr) {struct prefix} : bool :=
  match prefix, s with
  | [], _ => true
  | p :: prefix', c :: s' => N.eqb c p && startswith s' prefix'
  | _ :: _, [] => false
  end.

(** ** Control structures

    A [for] loop over a list and a [while] loop, both over a state [S]
    and in the option monad: [None] is an exception that leaves the
    loop.  A [while] loop takes the number of iterations it may run;
    running out of them is [None] as well. *)

Fixpoint for_ {S X : Type} (xs : list X) (body : X → S → option S) (s : S)
  : option S :=
  match xs with
  | [] => Some s
  | x :: xs' => s' ← body x s; for_ xs' body s'
  end.

Fixpoint while {S : Type} (fuel : nat) (cond : S → option bool)
    (body : S → option S) (s : S) : option S :=
  c ← cond s;
  if c : bool then
    match fuel with
    | O => None
    | S fuel' => s' ← body s; while fuel' cond body s'
    end
  else Some s.

(** [range(lo, hi)] and [enumerate(l)]. *)
Definition range (lo hi : nat) : list nat := seq lo (hi - lo).
Definition enumerate {X : Type} (l : list X) : list (nat * X) :=
  zip (seq 0 (length l)) l.

(** ** difflib: [_calculate_ratio] *)

(** A Python integer converted to a float. *)
Definition float_of_nat (n : nat) : float :=
  PrimFloat.of_uint63 (Uint63.of_Z (Z.of_nat n)).

Definition calculate_ratio (matches length : nat) : float :=
  match length with
  | O => 1.0%float
  | _ => (2.0 * float_of_nat matches / float_of_nat length)%float
  end.

(** ** difflib: [SequenceMatcher] *)

(** The tags of opcodes: ['replace'], ['delete'], ['insert'], ['equal']. *)
Inductive tag := replace | delete | insert | equal.

(** [Match(a, b, size)], also written as a triple [(i, j, k)]. *)
Abbreviation Match := (nat * nat * nat)%type.

(** The order of tuples of integers, which [list.sort] uses. *)
Definition Match_leb (x y : Match) : bool :=
  let '(i1, j1, k1) := x in
  let '(i2, j2, k2) := y in
  (i1 <? i2) || (i1 =? i2) && ((j1 <? j2) || (j1 =? j2) && (k1 <=? k2)).

Definition Match_le (x y : Match) : Prop := Match_leb x y = true.

Global Instance Match_le_dec x y : Decision (Match_le x y) :=
  bool_eq_dec (Match_leb x y) true.

Section SequenceMatcher.
Context {A : Type} `{Countable A}.

(** The attributes of the object.  The caches [matching_blocks],
    [opcodes] and [fullbcount] are left out: each holds a value that
    the methods below compute from [a], [b] and [isjunk], and is
    dropped when [a] or [b] is replaced. *)
Record SequenceMatcher := mkSequenceMatcher {
  sm_isjunk : option (A → bool);
  sm_autojunk : bool;
  sm_a : list A;
  sm_b : list A;
  sm_b2j : gmap A (list nat);
  sm_bjunk : gset A;
  sm_bpopular : gset A;
}.

(** [for elt in keys: del b2j[elt]]. *)
Definition del_keys (b2j : gmap A (list nat)) (keys : gset A)
  : gmap A (list nat) :=
  filter (λ kv, kv.1 ∉ keys) b2j.

(** [__chain_b], for a new [b]. *)
Definition chain_b (isjunk : option (A → bool)) (autojunk : bool)
    (b : list A) : gmap A (list nat) * gset A * gset A :=
  let b2j : gmap A (list nat) :=
    foldl (λ b2j '(i, elt), <[elt := default [] (b2j !! elt) ++ [i]]> b2j)
          ∅ (enumerate b) in
  (* Purge junk elements *)
  let junk : gset A :=
    match isjunk with
    | Some isjunk => filter (λ elt, isjunk elt = true) (dom b2j)
    | None => ∅
    end in
  let b2j := del_keys b2j junk in
  (* Purge popular elements that are not junk *)
  let n := length b in
  let popular : gset A :=
    if autojunk && (200 <=? n) then
      let ntest := n / 100 + 1 in
      dom (filter (λ kv, ntest < length kv.2) b2j)
    else ∅ in
  let b2j := del_keys b2j popular in
  (b2j, junk, popular).

Definition set_seq1 (self : SequenceMatcher) (a : list A) : SequenceMatcher :=
  mkSequenceMatcher (sm_isjunk self) (sm_autojunk self) a (sm_b self)
    (sm_b2j self) (sm_bjunk self) (sm_bpopular self).

Definition set_seq2 (self : SequenceMatcher) (b : list A) : SequenceMatcher :=
  let '(b2j, junk, popular) := chain_b (sm_isjunk self) (sm_autojunk self) b in
  mkSequenceMatcher (sm_isjunk self) (sm_autojunk self) (sm_a self) b
    b2j junk popular.

Definition set_seqs (self : SequenceMatcher) (a b : list A) : SequenceMatcher :=
  set_seq2 (set_seq1 self a) b.

(** [SequenceMatcher(isjunk, a, b)], with [autojunk=True]. *)
Definition new (isjunk : option (A → bool)) (a b : list A) : SequenceMatcher :=
  set_seqs (mkSequenceMatcher isjunk true [] [] ∅ ∅ ∅) a b.

Definition isbjunk (self : SequenceMatcher) (x : A) : bool :=
  bool_decide (x ∈ sm_bjunk self).

(** *** [find_longest_match] *)

(** [j2len.get(j-1, 0)]: no key is below zero. *)
Definition j2len_get_pred (j2len : gmap nat nat) (j : nat) : nat :=
  match j with
  | O => 0
  | S j' => default 0 (j2len !! j')
  end.

(** The state of the search: [(besti, bestj, bestsize)] and [newj2len]. *)
Abbreviation row_state := (Match * gmap nat nat)%type.

(** The loop [for j in b2j.get(a[i], nothing)], with its [continue]
    and [break].  [i-k+1] is written [i+1-k]: [k] is at most [i+1]. *)
Fixpoint match_row (blo bhi i : nat) (j2len : gmap nat nat)
    (js : list nat) (st : row_state) : row_state :=
  match js with
  | [] => st
  | j :: js' =>
      if j <? blo then match_row blo bhi i j2len js' st
      else if bhi <=? j then st
      else
        let '((besti, bestj, bestsize), newj2len) := st in
        let k := j2len_get_pred j2len j + 1 in
        let newj2len := <[j := k]> newj2len in
        if bestsize <? k
        then match_row blo bhi i j2len js' ((i + 1 - k, j + 1 - k, k), newj2len)
        else match_row blo bhi i j2len js' ((besti, bestj, bestsize), newj2len)
  end.

(** The body of [for i in range(alo, ahi)]; the state is the best
    match and [j2len]. *)
Definition match_rows_body (self : SequenceMatcher) (blo bhi : nat)
    (i : nat) (st : row_state) : option row_state :=
  let '(best, j2len) := st in
  ai ← sm_a self !! i;
  Some (match_row blo bhi i j2len (default [] (sm_b2j self !! ai)) (best, ∅)).

(** The conditions and bodies of the four [while] loops that extend
    the match; [junk] tells whether junk or non-junk is taken up. *)
Definition extend_left_cond (self : SequenceMatcher) (alo blo : nat)
    (junk : bool) (m : Match) : option bool :=
  let '(besti, bestj, bestsize) := m in
  if (alo <? besti) && (blo <? bestj) then
    bj ← sm_b self !! (bestj - 1);
    if bool_decide (isbjunk self bj = junk) then
      ai ← sm_a self !! (besti - 1);
      Some (bool_decide (ai = bj))
    else Some false
  else Some false.

Definition extend_left_body (m : Match) : option Match :=
  let '(besti, bestj, bestsize) := m in
  Some (besti - 1, bestj - 1, bestsize + 1).

Definition extend_right_cond (self : SequenceMatcher) (ahi bhi : nat)
    (junk : bool) (m : Match) : option bool :=
  let '(besti, bestj, bestsize) := m in
  if (besti + bestsize <? ahi) && (bestj + bestsize <? bhi) then
    bj ← sm_b self !! (bestj + bestsize);
    if bool_decide (isbjunk self bj = junk) then
      ai ← sm_a self !! (besti + bestsize);
      Some (bool_decide (ai = bj))
    else Some false
  else Some false.

Definition extend_right_body (m : Match) : option Match :=
  let '(besti, bestj, bestsize) := m in
  Some (besti, bestj, bestsize + 1).

(** The [while] loops run at most [besti - alo], respectively
    [ahi - (besti + bestsize)], times. *)
Definition extend (self : SequenceMatcher) (alo ahi blo bhi : nat)
    (junk : bool) (m : Match) : option Match :=
  m ← while (m.1.1 - alo) (extend_left_cond self alo blo junk)
         extend_left_body m;
  while (ahi - (m.1.1 + m.2)) (extend_right_cond self ahi bhi junk)
    extend_right_body m.

Definition find_longest_match (self : SequenceMatcher)
    (alo ahi blo bhi : nat) : option Match :=
  let best : Match := (alo, blo, 0) in
  (* find longest junk-free match *)
  '(best, _) ← for_ (range alo ahi) (match_rows_body self blo bhi) (best, ∅);
  (* Extend the best by non-junk elements on each end. *)
  best ← extend self alo ahi blo bhi false best;
  (* suck up the matching junk on each side of it too *)
  extend self alo ahi blo bhi true best.

(** *** [get_matching_blocks] *)

Abbreviation block_queue := (list (nat * nat * nat * nat))%type.

Definition blocks_cond (st : block_queue * list Match) : option bool :=
  Some (negb (bool_decide (st.1 = []))).

(** The body of [while queue]; the head of the list is the end of
    the Python list, where [pop] and [append] work. *)
Definition blocks_body (self : SequenceMatcher)
    (st : block_queue * list Match) : option (block_queue * list Match) :=
  let '(queue, matching_blocks) := st in
  match queue with
  | [] => None
  | (alo, ahi, blo, bhi) :: queue =>
      x ← find_longest_match self alo ahi blo bhi;
      let '(i, j, k) := x in
      if negb (k =? 0) then
        let matching_blocks := matching_blocks ++ [x] in
        let queue :=
          if (alo <? i) && (blo <? j) then (alo, i, blo, j) :: queue
          else queue in
        let queue :=
          if (i + k <? ahi) && (j + k <? bhi) then (i + k, ahi, j + k, bhi) :: queue
          else queue in
        Some (queue, matching_blocks)
      else Some (queue, matching_blocks)
  end.

(** The loop that collapses adjacent equal blocks; the state is
    [(i1, j1, k1)] and [non_adjacent]. *)
Definition collapse_body (x : Match) (st : Match * list Match)
  : Match * list Match :=
  let '(i2, j2, k2) := x in
  let '((i1, j1, k1), non_adjacent) := st in
  if (i1 + k1 =? i2) && (j1 + k1 =? j2) then
    ((i1, j1, k1 + k2), non_adjacent)
  else
    let non_adjacent :=
      if negb (k1 =? 0) then non_adjacent ++ [(i1, j1, k1)]
      else non_adjacent in
    ((i2, j2, k2), non_adjacent).

Definition collapse_adjacent (la lb : nat) (matching_blocks : list Match)
  : list Match :=
  let '((i1, j1, k1), non_adjacent) :=
    foldl (λ st x, collapse_body x st) ((0, 0, 0), []) matching_blocks in
  let non_adjacent :=
    if negb (k1 =? 0) then non_adjacent ++ [(i1, j1, k1)] else non_adjacent in
  non_adjacent ++ [(la, lb, 0)].

(** Every pass of [while queue] but the last takes a block of at
    least one element of [a] and one of [b] out of the queue's
    ranges, so [la + lb + 1] passes are enough. *)
Definition get_matching_blocks (self : SequenceMatcher) : option (list Match) :=
  let la := length (sm_a self) in
  let lb := length (sm_b self) in
  '(_, matching_blocks) ←
    while (la + lb + 1) blocks_cond (blocks_body self) ([(0, la, 0, lb)], []);
  let matching_blocks := merge_sort Match_le matching_blocks in
  Some (collapse_adjacent la lb matching_blocks).

(** *** [get_opcodes] *)

Abbreviation opcode := (tag * nat * nat * nat * nat)%type.

Definition opcodes_body (x : Match) (st : nat * nat * list opcode)
  : nat * nat * list opcode :=
  let '(ai, bj, size) := x in
  let '(i, j, answer) := st in
  let answer :=
    if (i <? ai) && (j <? bj) then answer ++ [(replace, i, ai, j, bj)]
    else if i <? ai then answer ++ [(delete, i, ai, j, bj)]
    else if j <? bj then answer ++ [(insert, i, ai, j, bj)]
    else answer in
  let '(i, j) := (ai + size, bj + size) in
  let answer :=
    if negb (size =? 0) then answer ++ [(equal, ai, i, bj, j)] else answer in
  (i, j, answer).

Definition get_opcodes (self : SequenceMatcher) : option (list opcode) :=
  blocks ← get_matching_blocks self;
  Some (foldl (λ st x, opcodes_body x st) (0, 0, []) blocks).2.

(** *** [ratio], [quick_ratio], [real_quick_ratio] *)

Definition ratio (self : SequenceMatcher) : option float :=
  blocks ← get_matching_blocks self;
  let matches := sum_list (snd <$> blocks) in
  Some (calculate_ratio matches (length (sm_a self) + length (sm_b self))).

Definition fullbcount (b : list A) : gmap A Z :=
  foldl (λ (fullbcount : gmap A Z) elt,
           <[elt := (default 0 (fullbcount !! elt) + 1)%Z]> fullbcount)
        ∅ b.

Definition quick_ratio (self : SequenceMatcher) : float :=
  let fullbcount := fullbcount (sm_b self) in
  let '(avail, matches) :=
    foldl (λ '((avail, matches) : gmap A Z * nat) elt,
             let numb : Z :=
               match avail !! elt with
               | Some numb => numb
               | None => default 0%Z (fullbcount !! elt)
               end in
             let avail := <[elt := (numb - 1)%Z]> avail in
             if (0 <? numb)%Z then (avail, matches + 1) else (avail, matches))
          (∅, 0) (sm_a self) in
  calculate_ratio matches (length (sm_a self) + length (sm_b self)).

Definition real_quick_ratio (self : SequenceMatcher) : float :=
  let la := length (sm_a self) in
  let lb := length (sm_b self) in
  calculate_ratio (la `min` lb) (la + lb).
End SequenceMatcher.

Global Arguments SequenceMatcher A {_ _}.

(** ** difflib: [Differ] and [ndiff] *)

(** [IS_CHARACTER_JUNK]: a blank or a tab. *)
Definition IS_CHARACTER_JUNK (ch : N) : bool := N.eqb ch 32 || N.eqb ch 9.

(** [_keep_original_ws]. *)
Definition keep_original_ws (s tag_s : pystr) : pystr :=
  (λ '(c, tag_c), if N.eqb tag_c 32 && isspace c then c else tag_c)
    <$> zip s tag_s.

Record Differ := mkDiffer {
  linejunk : option (pystr → bool);
  charjunk : option (N → bool);
}.

(** [_dump]: the lines [x[lo:hi]], each after [tag] and a blank. *)
Definition dump (tag : pystr) (x : list pystr) (lo hi : nat)
  : option (list pystr) :=
  for_ (range lo hi)
       (λ i out, xi ← x !! i; Some (out ++ [tag ++ str " " ++ xi])) [].

Definition plain_replace (a : list pystr) (alo ahi : nat)
    (b : list pystr) (blo bhi : nat) : option (list pystr) :=
  if (alo <? ahi) && (blo <? bhi) then
    (* dump the shorter block first *)
    if bhi - blo <? ahi - alo then
      first ← dump (str "+") b blo bhi;
      second ← dump (str "-") a alo ahi;
      Some (first ++ second)
    else
      first ← dump (str "-") a alo ahi;
      second ← dump (str "+") b blo bhi;
      Some (first ++ second)
  else None.

(** [_qformat]. *)
Definition qformat (aline bline atags btags : pystr) : list pystr :=
  let atags := rstrip (keep_original_ws aline atags) in
  let btags := rstrip (keep_original_ws bline btags) in
  [str "- " ++ aline]
  ++ (if bool_decide (atags = []) then [] else [str "? " ++ atags ++ [10%N]])
  ++ [str "+ " ++ bline]
  ++ (if bool_decide (btags = []) then [] else [str "? " ++ btags ++ [10%N]]).

(** The intraline marks of a pair of lines, from the opcodes of their
    characters. *)
Definition intraline_tags (opcodes : list (tag * nat * nat * nat * nat))
  : pystr * pystr :=
  foldl (λ '(atags, btags) '(tag, ai1, ai2, bj1, bj2),
           let la := ai2 - ai1 in
           let lb := bj2 - bj1 in
           match tag with
           | replace => (atags ++ replicate la 94%N, btags ++ replicate lb 94%N)
           | delete => (atags ++ replicate la 45%N, btags)
           | insert => (atags, btags ++ replicate lb 43%N)
           | equal => (atags ++ replicate la 32%N, btags ++ replicate lb 32%N)
           end)
        ([], []) opcodes.

(** The state of the search of [_fancy_replace]: [best_ratio],
    [(best_i, best_j)] once they are bound, and [(eqi, eqj)]. *)
Abbreviation search_state :=
  (float * option (nat * nat) * option (nat * nat))%type.

(** The body of [for i in range(alo, ahi)], for the line [bj] at [j];
    [cruncher] has [bj] as its second sequence. *)
Definition search_body (a : list pystr) (cruncher : SequenceMatcher N)
    (j : nat) (bj : pystr) (i : nat) (st : search_state)
  : option search_state :=
  let '(best_ratio, best, eq) := st in
  ai ← a !! i;
  if bool_decide (ai = bj) then
    match eq with
    | None => Some (best_ratio, best, Some (i, j))
    | Some _ => Some st
    end
  else
    let cruncher := set_seq1 cruncher ai in
    if PrimFloat.ltb best_ratio (real_quick_ratio cruncher) then
      if PrimFloat.ltb best_ratio (quick_ratio cruncher) then
        r ← ratio cruncher;
        if PrimFloat.ltb best_ratio r then Some (r, Some (i, j), eq)
        else Some st
      else Some st
    else Some st.

(** [_fancy_helper], over the recursive call [replace_]. *)
Definition fancy_helper
    (replace_ : list pystr → nat → nat → list pystr → nat → nat
                → option (list pystr))
    (a : list pystr) (alo ahi : nat) (b : list pystr) (blo bhi : nat)
  : option (list pystr) :=
  if alo <? ahi then
    if blo <? bhi then replace_ a alo ahi b blo bhi
    else dump (str "-") a alo ahi
  else if blo <? bhi then dump (str "+") b blo bhi
  else Some [].

(** [_fancy_replace].  [depth] bounds the depth of the recursion
    through [_fancy_helper]. *)
Fixpoint fancy_replace (depth : nat) (self : Differ)
    (a : list pystr) (alo ahi : nat) (b : list pystr) (blo bhi : nat)
  : option (list pystr) :=
  match depth with
  | O => None
  | S depth' =>
      let '(best_ratio, cutoff) := (0.74%float, 0.75%float) in
      let cruncher := new (charjunk self) [] [] in
      '(best_ratio, best, eq) ←
        for_ (range blo bhi)
             (λ j st,
                bj ← b !! j;
                let cruncher := set_seq2 cruncher bj in
                for_ (range alo ahi) (search_body a cruncher j bj) st)
             (best_ratio, None, None);
      if PrimFloat.ltb best_ratio cutoff && bool_decide (eq = None) then
        (* no close pair and no identical pair *)
        plain_replace a alo ahi b blo bhi
      else
        '(best_i, best_j, identical) ←
          (if PrimFloat.ltb best_ratio cutoff
           then '(eqi, eqj) ← eq; Some (eqi, eqj, true)
           else '(best_i, best_j) ← best; Some (best_i, best_j, false));
        before ← fancy_helper (fancy_replace depth' self) a alo best_i b blo best_j;
        aelt ← a !! best_i;
        belt ← b !! best_j;
        synch ←
          (if identical : bool then Some [str "  " ++ aelt]
           else
             opcodes ← get_opcodes (set_seqs cruncher aelt belt);
             let '(atags, btags) := intraline_tags opcodes in
             Some (qformat aelt belt atags btags));
        after ← fancy_helper (fancy_replace depth' self)
                  a (best_i + 1) ahi b (best_j + 1) bhi;
        Some (before ++ synch ++ after)
  end.

(** [Differ.compare]; the generator's lines are collected in a list. *)
Definition compare_body (self : Differ) (a b : list pystr)
    (op : tag * nat * nat * nat * nat) (out : list pystr)
  : option (list pystr) :=
  let '(tag, alo, ahi, blo, bhi) := op in
  g ← match tag with
      | replace => fancy_replace (ahi - alo) self a alo ahi b blo bhi
      | delete => dump (str "-") a alo ahi
      | insert => dump (str "+") b blo bhi
      | equal => dump (str " ") a alo ahi
      end;
  Some (out ++ g).

Definition Differ_compare (self : Differ) (a b : list pystr)
  : option (list pystr) :=
  let cruncher := new (linejunk self) a b in
  opcodes ← get_opcodes cruncher;
  for_ opcodes (compare_body self a b) [].

Definition ndiff (a b : list pystr) : option (list pystr) :=
  Differ_compare (mkDiffer None (Some IS_CHARACTER_JUNK)) a b.

(** ** The window: [DiffGUI] *)

(** The message boxes shown to the user. *)
Inductive dialog :=
  | showwarning (title message : pystr)
  | showerror (title message : pystr)
  | showinfo (title message : pystr).

(** The attributes of the window that the methods read or write: the
    Tk variables, the text widget as the chunks inserted into it with
    their tags, the status bar, and [last_diff_lines]. *)
Record DiffGUI := mkDiffGUI {
  file1 : pystr;
  file2 : pystr;
  ignore_case : bool;
  ignore_ws : bool;
  text : list (pystr * option pystr);
  status : pystr;
  last_diff_lines : list pystr;
}.

(** The files: whether a path exists, and what reading it as text and
    splitting it in lines gives, the lines or the text of the
    exception. *)
Record Files := mkFiles {
  path_exists : pystr → bool;
  read_lines : pystr → list pystr + pystr;
}.

(** [str(n)] and [str(b)] as f-strings print them. *)
Definition str_of_nat (n : nat) : pystr := str (pretty n).
Definition str_of_bool (b : bool) : pystr :=
  if b then str "True" else str "False".

(** [DiffGUI.__init__], as far as the attributes above go. *)
Definition DiffGUI_init : DiffGUI :=
  mkDiffGUI [] [] false false [] (str "Pick two files and click Compare.") [].

Definition read_text (files : Files) (path : pystr)
  : option (list pystr) * list dialog :=
  match read_lines files path with
  | inl lines => (Some lines, [])
  | inr e =>
      (None, [showerror (str "Read error")
                (str "Could not read " ++ path ++ [10; 10]%N ++ e)])
  end.

Definition set_text (self : DiffGUI) (text : list (pystr * option pystr))
  : DiffGUI :=
  mkDiffGUI (file1 self) (file2 self) (ignore_case self) (ignore_ws self)
    text (status self) (last_diff_lines self).

Definition set_status (self : DiffGUI) (status : pystr) : DiffGUI :=
  mkDiffGUI (file1 self) (file2 self) (ignore_case self) (ignore_ws self)
    (text self) status (last_diff_lines self).

Definition set_last_diff_lines (self : DiffGUI) (lines : list pystr) : DiffGUI :=
  mkDiffGUI (file1 self) (file2 self) (ignore_case self) (ignore_ws self)
    (text self) (status self) lines.

(** [self.text.insert("end", chunk, tag)]. *)
Definition text_insert (self : DiffGUI) (chunk : pystr) (tag : option pystr)
  : DiffGUI :=
  set_text self (text self ++ [(chunk, tag)]).

Definition clear (self : DiffGUI) : DiffGUI :=
  let self := set_text self [] in
  let self := set_status self (str "Cleared.") in
  set_last_diff_lines self [].

Definition insert_line (self : DiffGUI) (line : pystr) : DiffGUI :=
  if startswith line (str "+") then text_insert self line (Some (str "plus"))
  else if startswith line (str "-") then text_insert self line (Some (str "minus"))
  else if startswith line (str "?") then text_insert self line (Some (str "hint"))
  else if startswith line (str "---") || startswith line (str "+++")
          || startswith line (str "@@")
       then text_insert self line (Some (str "meta"))
  else if startswith line (str " ") then text_insert self line (Some (str "ctx"))
  else text_insert self line None.

(** [sum(1 for l in diff if l.startswith(prefix))]. *)
Definition count_startswith (prefix : pystr) (diff : list pystr) : nat :=
  foldl (λ n l, if startswith l prefix then n + 1 else n) 0 diff.

Definition added (diff : list pystr) : nat := count_startswith (str "+ ") diff.
Definition removed (diff : list pystr) : nat := count_startswith (str "- ") diff.
Definition changed_hints (diff : list pystr) : nat :=
  count_startswith (str "? ") diff.

(** [DiffGUI.compare]: the new window and the message boxes shown;
    [None] is an exception that leaves the method. *)
Definition compare (files : Files) (self : DiffGUI)
  : option (DiffGUI * list dialog) :=
  let path1 := strip (file1 self) in
  let path2 := strip (file2 self) in
  if bool_decide (path1 = []) || bool_decide (path2 = []) then
    Some (self, [showwarning (str "Missing file")
                   (str "Please choose both File A and File B.")])
  else if negb (path_exists files path1) || negb (path_exists files path2) then
    Some (self, [showwarning (str "Invalid file")
                   (str "One or both file paths do not exist.")])
  else
    let '(lines1, shown1) := read_text files path1 in
    let '(lines2, shown2) := read_text files path2 in
    match lines1, lines2 with
    | Some lines1, Some lines2 =>
        (* Normalize (for diff only) if options are set *)
        let norm1 := normalize_lines lines1 (ignore_case self) (ignore_ws self) in
        let norm2 := normalize_lines lines2 (ignore_case self) (ignore_ws self) in
        (* Compute diff using ndiff for clear +/-/? lines *)
        diff ← ndiff norm1 norm2;
        (* Count stats and display *)
        let added := added diff in
        let removed := removed diff in
        let changed_hints := changed_hints diff in
        let self := clear self in
        (* Header *)
        let header :=
          [ str "Comparing:" ++ [10%N] ++ str "  A: " ++ path1 ++ [10%N]
              ++ str "  B: " ++ path2 ++ [10%N];
            str "Options: ignore_case=" ++ str_of_bool (ignore_case self)
              ++ str "  ignore_whitespace=" ++ str_of_bool (ignore_ws self)
              ++ [10%N];
            str "Summary: +" ++ str_of_nat added ++ str "  -"
              ++ str_of_nat removed ++ str "  ?" ++ str_of_nat changed_hints
              ++ str " (hints)" ++ [10%N];
            replicate 80 45%N ++ [10%N] ] in
        let self :=
          foldl (λ self h, text_insert self h (Some (str "meta"))) self header in
        (* Insert diff lines *)
        let self := set_last_diff_lines self [] in
        let self :=
          foldl (λ self line,
                   let out := line ++ [10%N] in
                   let self := insert_line self out in
                   set_last_diff_lines self (last_diff_lines self ++ [out]))
                self diff in
        let self :=
          set_status self
            (str "Done. Added: " ++ str_of_nat added ++ str ", Removed: "
               ++ str_of_nat removed ++ str ", Hints: "
               ++ str_of_nat changed_hints) in
        Some (self, shown1 ++ shown2)
    | _, _ => Some (self, shown1 ++ shown2)
    end.

(** [DiffGUI.save_diff].  [answer] is the path the save dialog returns,
    empty when the user cancels.  [FS] is the state of the file system
    and [write_text path data fs] what [Path(path).write_text(data)]
    does to it, with the text of the exception when it raises one. *)
Section save_diff.
Context {FS : Type}.
Variable write_text : pystr → pystr → FS → FS * option pystr.

Definition save_diff (self : DiffGUI) (answer : pystr) (fs : FS)
  : DiffGUI * FS * list dialog :=
  if bool_decide (last_diff_lines self = []) then
    (self, fs, [showinfo (str "No diff")
                  (str "Nothing to save. Run a comparison first.")])
  else
    let path := answer in
    if bool_decide (path = []) then (self, fs, [])
    else
      match write_text path (join [] (last_diff_lines self)) fs with
      | (fs, None) =>
          (set_status self (str "Saved diff to " ++ path), fs, [])
      | (fs, Some e) =>
          (self, fs, [showerror (str "Save error")
                        (str "Could not save diff" ++ [10; 10]%N ++ e)])
      end.
End save_diff.

(** ** The records of the specification

    An [EditRecord] is a line of the diff read by its first two
    characters: two blanks for [Context], ["+ "] for [Insertion],
    ["- "] for [Deletion] and ["? "] for [Hint]. *)
Inductive EditRecord :=
  | Context (text : pystr)
  | Insertion (text : pystr)
  | Deletion (text : pystr)
  | Hint (marker : pystr).

Definition record_of_line (line : pystr) : option EditRecord :=
  match line with
  | 32 :: 32 :: text => Some (Context text)
  | 43 :: 32 :: text => Some (Insertion text)
  | 45 :: 32 :: text => Some (Deletion text)
  | 63 :: 32 :: marker => Some (Hint marker)
  | _ => None
  end%N.

(** [diff(a, b)]: the records, and the counts [added], [removed] and
    [hintCount] as [DiffGUI.compare] computes them. *)
Definition diff_result (a b : list pystr)
  : option (list EditRecord * (nat * nat * nat)) :=
  diff ← ndiff a b;
  records ← mapM record_of_line diff;
  Some (records, (added diff, removed diff, changed_hints diff)).

(** ** Sample surroundings

    Two files with the same line, which has a capital letter and a run
    of blanks; and a file system in which the paths under [/ro/]
    cannot be written. *)
Definition sample_files : Files :=
  mkFiles (λ path, bool_decide (path = str "a.txt")
                   || bool_decide (path = str "b.txt"))
          (λ path, inl [str "Hello  World"]).

Definition sample_gui : DiffGUI :=
  mkDiffGUI (str "a.txt") (str "b.txt") true true []
    (str "Pick two files and click Compare.") [].

Definition sample_write_text (path data : pystr) (fs : gmap pystr pystr)
  : gmap pystr pystr * option pystr :=
  if startswith path (str "/ro/")
  then (fs, Some (str "[Errno 30] Read-only file system"))
  else (<[path := data]> fs, None).

(** ** Notions used in the proofs *)

(** A word of [str.split]: not empty and without white space. *)
Definition is_word (p : pystr) : Prop :=
  p ≠ [] ∧ Forall (λ x, isspace x = false) p.

Section notions.
Context {A : Type} `{!EqDecision A, !Countable A}.
Implicit Types (a b : list A) (x : A) (self : SequenceMatcher A).

(** The indices at which [x] appears in [b], in increasing order. *)
Definition positions x b : list nat :=
  filter (λ j, b !! j = Some x) (seq 0 (length b)).

(** The dictionary that the first loop of [__chain_b] builds. *)
Definition b2j_all b : gmap A (list nat) :=
  foldl (λ b2j '(i, elt), <[elt := default [] (b2j !! elt) ++ [i]]> b2j)
        ∅ (enumerate b).

(** A matcher whose dictionary is sound for its [b]. *)
Definition b2j_sound self : Prop :=
  ∀ x idxs, sm_b2j self !! x = Some idxs → idxs = positions x (sm_b self).

(** [m] is a block of [a[alo:ahi]] equal to a block of [b[blo:bhi]]. *)
Definition valid_match a b (alo ahi blo bhi : nat) (m : Match) : Prop :=
  let '(i, j, k) := m in
  alo ≤ i ∧ i + k ≤ ahi ∧ blo ≤ j ∧ j + k ≤ bhi
  ∧ ∀ t, t < k → a !! (i + t) = b !! (j + t).

(** What [j2len] holds once the rows below [i] are done: for each
    [j], the length of a match that ends with [a[i-1]] and [b[j]]. *)
Definition row_ok a b (alo blo bhi i : nat) (j2len : gmap nat nat) : Prop :=
  ∀ j k, j2len !! j = Some k →
    1 ≤ k ∧ k ≤ i - alo ∧ k ≤ j + 1 - blo ∧ j < bhi
    ∧ ∀ t, t < k → a !! (i - k + t) = b !! (j + 1 - k + t).

(** For a sequence [L] compared with itself: the length of the
    longest block of elements with an entry in [b2j] that ends just
    before [L[i]] and just before [L[j]]. *)
Fixpoint common_run (L : list A) (b2j : gmap A (list nat)) (i j : nat) : nat :=
  match i, j with
  | S i', S j' =>
      match L !! i', L !! j' with
      | Some x, Some y =>
          if decide (x = y ∧ is_Some (b2j !! x))
          then S (common_run L b2j i' j') else 0
      | _, _ => 0
      end
  | _, _ => 0
  end.

(** The state of the search in row [i], once the columns below [lo]
    are done. *)
Definition row_diag (L : list A) (b2j : gmap A (list nat))
    (i : nat) (ai : A) (lo : nat) (st : Match * gmap nat nat) : Prop :=
  let '((besti, bestj, bestsize), newj2len) := st in
  besti = bestj ∧ besti + bestsize ≤ i + 1
  ∧ (∀ i' j, i' ≤ i → common_run L b2j i' j ≤ bestsize)
  ∧ (∀ j, j < lo → L !! j = Some ai →
          common_run L b2j (i + 1) (j + 1) ≤ bestsize)
  ∧ (∀ j, newj2len !! j
          = if decide (j < lo ∧ L !! j = Some ai)
            then Some (common_run L b2j (i + 1) (j + 1)) else None).

(** The search, once the rows below [i] are done. *)
Definition rows_diag (L : list A) (b2j : gmap A (list nat))
    (i : nat) (st : Match * gmap nat nat) : Prop :=
  let '((besti, bestj, bestsize), j2len) := st in
  besti = bestj ∧ besti + bestsize ≤ i
  ∧ (∀ i' j, i' ≤ i → common_run L b2j i' j ≤ bestsize)
  ∧ (∀ j, j2len_get_pred j2len j = common_run L b2j i j).
End notions.

(** *** Blocks and ranges *)

(** A range [(alo, ahi, blo, bhi)] of the queue; the range that a
    block covers. *)
Abbreviation rect := (nat * nat * nat * nat)%type.

Definition rect_of (m : Match) : rect :=
  let '(i, j, k) := m in (i, i + k, j, j + k).

(** [r1] ends, in [a] and in [b], where [r2] starts or earlier. *)
Definition before (r1 r2 : rect) : Prop :=
  let '(_, ahi1, _, bhi1) := r1 in
  let '(alo2, _, blo2, _) := r2 in
  ahi1 ≤ alo2 ∧ bhi1 ≤ blo2.

Definition apart (r1 r2 : rect) : Prop := before r1 r2 ∨ before r2 r1.

(** [s] lies in [r]. *)
Definition within (s r : rect) : Prop :=
  let '(alo1, ahi1, blo1, bhi1) := s in
  let '(alo2, ahi2, blo2, bhi2) := r in
  alo2 ≤ alo1 ∧ ahi1 ≤ ahi2 ∧ blo2 ≤ blo1 ∧ bhi1 ≤ bhi2.

Definition inside (la lb : nat) (r : rect) : Prop :=
  let '(alo, ahi, blo, bhi) := r in alo ≤ ahi ≤ la ∧ blo ≤ bhi ≤ lb.

Definition rect_size (r : rect) : nat :=
  let '(alo, ahi, blo, bhi) := r in (ahi - alo) + (bhi - blo) + 1.

Definition queue_measure (queue : list rect) : nat :=
  sum_list (rect_size <$> queue).

(** Every two elements of a list are related. *)
Fixpoint pairwise {X : Type} (R : relation X) (l : list X) : Prop :=
  match l with
  | [] => True
  | x :: l' => Forall (R x) l' ∧ pairwise R l'
  end.

(** [l[lo:hi]]. *)
Definition slice {X : Type} (l : list X) (lo hi : nat) : list X :=
  take (hi - lo) (drop lo l).

Section block_notions.
Context {A : Type} `{!EqDecision A, !Countable A}.
Implicit Types (a b : list A).

(** A block of [a] equal to a block of [b], of one element or more. *)
Definition good_block a b (m : Match) : Prop :=
  let '(i, j, k) := m in
  0 < k ∧ i + k ≤ length a ∧ j + k ≤ length b
  ∧ ∀ t, t < k → a !! (i + t) = b !! (j + t).

(** The state of [while queue]: ranges inside the sequences, blocks
    that match, and no two of them side by side. *)
Definition blocks_inv a b (st : list rect * list Match) : Prop :=
  Forall (inside (length a) (length b)) st.1
  ∧ Forall (good_block a b) st.2
  ∧ pairwise apart (st.1 ++ (rect_of <$> st.2)).

(** [blocks] are matching blocks that go up in [a] and in [b], from
    [(i, j)] to [(i', j')]. *)
Fixpoint mono a b (i j : nat) (blocks : list Match) (i' j' : nat) : Prop :=
  match blocks with
  | [] => i = i' ∧ j = j'
  | (ai, bj, size) :: rest =>
      i ≤ ai ∧ j ≤ bj
      ∧ ai + size ≤ length a ∧ bj + size ≤ length b
      ∧ (∀ t, t < size → a !! (ai + t) = b !! (bj + t))
      ∧ mono a b (ai + size) (bj + size) rest i' j'
  end.

(** What a tag promises of its ranges. *)
Definition tag_ok a b (t : tag) (i1 i2 j1 j2 : nat) : Prop :=
  match t with
  | replace => i1 < i2 ∧ j1 < j2
  | delete => j1 = j2
  | insert => i1 = i2
  | equal => slice a i1 i2 = slice b j1 j2
  end.

(** [ops] are opcodes that follow one another from [(i, j)] to
    [(i', j')]. *)
Fixpoint ops_ok a b (i j : nat) (ops : list (tag * nat * nat * nat * nat))
    (i' j' : nat) : Prop :=
  match ops with
  | [] => i = i' ∧ j = j'
  | (t, i1, i2, j1, j2) :: rest =>
      i1 = i ∧ j1 = j ∧ i1 ≤ i2 ≤ length a ∧ j1 ≤ j2 ≤ length b
      ∧ tag_ok a b t i1 i2 j1 j2
      ∧ ops_ok a b i2 j2 rest i' j'
  end.
End block_notions.

(** *** Records as an edit script *)

(** The line of the first sequence, and of the second, that a record
    carries. *)
Definition old_line (r : EditRecord) : option pystr :=
  match r with
  | Context text | Deletion text => Some text
  | Insertion _ | Hint _ => None
  end.

Definition new_line (r : EditRecord) : option pystr :=
  match r with
  | Context text | Insertion text => Some text
  | Deletion _ | Hint _ => None
  end.

(** [Insertion] and [Deletion] swapped. *)
Definition swap_record (r : EditRecord) : EditRecord :=
  match r with
  | Insertion text => Deletion text
  | Deletion text => Insertion text
  | Context _ | Hint _ => r
  end.

Definition is_hint (r : EditRecord) : bool :=
  match r with Hint _ => true | _ => false end.

(** The records but the hints. *)
Definition pattern (records : list EditRecord) : list EditRecord :=
  filter (λ r, is_hint r = false) records.

(** The symmetry law at [a] and [b]: both diffs run, and the pattern of
    [diff(a, b)] with [Insertion] and [Deletion] swapped is the pattern
    of [diff(b, a)]. *)
Definition symmetric_at (a b : list pystr) : Prop :=
  ∃ rab cab rba cba,
    diff_result a b = Some (rab, cab)
    ∧ diff_result b a = Some (rba, cba)
    ∧ swap_record <$> pattern rab = pattern rba.

(** Every [Hint] comes straight after a [Deletion] or an [Insertion];
    [after_edit] tells whether the record before the list is one. *)
Fixpoint hints_placed (after_edit : bool) (records : list EditRecord) : Prop :=
  match records with
  | [] => True
  | Hint _ :: rest => after_edit = true ∧ hints_placed false rest
  | Insertion _ :: rest | Deletion _ :: rest => hints_placed true rest
  | Context _ :: rest => hints_placed false rest
  end.

(** The lines [g] read as records that carry the lines [xs] of the
    first sequence and [ys] of the second, with their hints in place. *)
Definition carries (g xs ys : list pystr) : Prop :=
  ∃ records,
    mapM record_of_line g = Some records
    ∧ omap old_line records = xs ∧ omap new_line records = ys
    ∧ hints_placed false records.

(** What the search of [_fancy_replace] keeps: [best_ratio] is 0.74
    until a pair is bound, and the pairs lie in the ranges. *)
Definition search_inv (a b : list pystr) (alo ahi blo bhi : nat)
    (st : float * option (nat * nat) * option (nat * nat)) : Prop :=
  let '(best_ratio, best, eq) := st in
  (best = None → best_ratio = 0.74%float)
  ∧ (∀ i j, best = Some (i, j) → alo ≤ i < ahi ∧ blo ≤ j < bhi)
  ∧ (∀ i j, eq = Some (i, j) →
       alo ≤ i < ahi ∧ blo ≤ j < bhi ∧ a !! i = b !! j).

(** ** A sink that fails part way

    [Path(path).write_text(data)] on a device with room for [room]
    more characters: the file is opened in mode ['w'], which empties
    it; the characters that fit are written, and the write raises when
    some do not. *)
Definition full_disk_write_text (room : nat) (path data : pystr)
    (fs : gmap pystr pystr) : gmap pystr pystr * option pystr :=
  if length data <=? room then (<[path := data]> fs, None)
  else (<[path := take room data]> fs,
        Some (str "[Errno 28] No space left on device")).

(** A window with a diff of one line to save, and a file system whose
    [out.diff] holds an earlier diff. *)
Definition sample_diff_gui : DiffGUI :=
  set_last_diff_lines sample_gui [str "- a" ++ [10%N]].

Definition sample_disk : gmap pystr pystr :=
  {[ str "out.diff" := str "old content" ]}.

(** A failed save that leaves nothing behind, in the window or in the
    sink. *)
Definition failed_save_leaves_no_trace {FS : Type}
    (write_text : pystr → pystr → FS → FS * option pystr)
    (self : DiffGUI) (answer : pystr) (fs : FS) : Prop :=
  ∀ fs' e,
    write_text answer (join [] (last_diff_lines self)) fs = (fs', Some e) →
    save_diff write_text self answer fs
    = (self, fs, [showerror (str "Save error")
                    (str "Could not save diff" ++ [10; 10]%N ++ e)]).

(** ** The colour of a record

    The tag of the text widget under which [insert_line] puts a line
    of each kind. *)
Definition tag_of_record (r : EditRecord) : pystr :=
  match r with
  | Context _ => str "ctx"
  | Insertion _ => str "plus"
  | Deletion _ => str "minus"
  | Hint _ => str "hint"
  end.

(** The header that [compare] puts in the text widget, for the paths
    and options of the window and the counts of the diff. *)
Definition header_chunks (self : DiffGUI) (diff : list pystr)
  : list (pystr * option pystr) :=
  (λ h, (h, Some (str "meta")))
    <$> [ str "Comparing:" ++ [10%N] ++ str "  A: " ++ strip (file1 self)
            ++ [10%N] ++ str "  B: " ++ strip (file2 self) ++ [10%N];
          str "Options: ignore_case=" ++ str_of_bool (ignore_case self)
            ++ str "  ignore_whitespace=" ++ str_of_bool (ignore_ws self)
            ++ [10%N];
          str "Summary: +" ++ str_of_nat (added diff) ++ str "  -"
            ++ str_of_nat (removed diff) ++ str "  ?"
            ++ str_of_nat (changed_hints diff) ++ str " (hints)" ++ [10%N];
          replicate 80 45%N ++ [10%N] ].

(** The chunk that [insert_line] adds for a line. *)
Definition line_chunk (line : pystr) : pystr * option pystr :=
  match text (insert_line DiffGUI_init line) with
  | chunk :: _ => chunk
  | [] => (line, None)
  end.

(** The window after a comparison that gave the lines [diff]. *)
Definition compared (self : DiffGUI) (diff : list pystr) : DiffGUI :=
  mkDiffGUI (file1 self) (file2 self) (ignore_case self) (ignore_ws self)
    (header_chunks self diff
     ++ ((λ line, line_chunk (line ++ [10%N])) <$> diff))
    (str "Done. Added: " ++ str_of_nat (added diff) ++ str ", Removed: "
       ++ str_of_nat (removed diff) ++ str ", Hints: "
       ++ str_of_nat (changed_hints diff))
    ((λ line, line ++ [10%N]) <$> diff).

(** Two paths that exist and hold no line; and two that exist and
    cannot be read. *)
Definition empty_files : Files :=
  mkFiles (λ path, true) (λ path, inl []).

Definition unreadable_files : Files :=
  mkFiles (λ path, true)
          (λ path, inr (str "[Errno 13] Permission denied: '" ++ path
                          ++ str "'")).

(** * Proofs *)

(** * The normaliser *)

Section normaliser.
Implicit Types (s w : pystr) (c : N) (ic iw : bool).

Lemma normalize_lines_map lines ic iw :
  normalize_lines lines ic iw = map (normalize_line ic iw) lines.
Proof.
  unfold normalize_lines.
  enough (H : ∀ acc, foldl (λ norm line, norm ++ [normalize_line ic iw line])
                       acc lines = acc ++ map (normalize_line ic iw) lines)
    by apply (H []).
  induction lines as [|l lines IH]; intros acc; simpl.
  - by rewrite app_nil_r.
  - rewrite IH, <- app_assoc. done.
Qed.

(** *** Splitting and joining *)

Lemma split_from_nonempty w s : w ≠ [] → split_from w s ≠ [].
Proof.
  revert w. induction s as [|c s IH]; intros w Hw; simpl.
  - by destruct w.
  - destruct (isspace c).
    + by destruct w.
    + apply IH. by destruct w.
Qed.

Lemma join_cons sep p ps :
  join sep (p :: ps) = match ps with [] => p | _ => p ++ sep ++ join sep ps end.
Proof. by destruct ps. Qed.

Lemma rstrip_cons_nonspace c s :
  isspace c = false → rstrip (c :: s) = c :: rstrip s.
Proof. intros Hc. simpl. rewrite Hc. by destruct (rstrip s). Qed.

Lemma collapse_runs_nonspace c s :
  isspace c = false → collapse_runs (c :: s) = c :: collapse_runs s.
Proof. intros Hc. simpl. by rewrite Hc. Qed.

Lemma collapse_runs_space_space c c' s :
  isspace c = true → isspace c' = true →
  collapse_runs (c :: c' :: s) = collapse_runs (c' :: s).
Proof. intros Hc Hc'. cbn [collapse_runs]. by rewrite Hc, Hc'. Qed.

Lemma collapse_runs_space_word c c' s :
  isspace c = true → isspace c' = false →
  collapse_runs (c :: c' :: s) = 32%N :: c' :: collapse_runs s.
Proof. intros Hc Hc'. cbn [collapse_runs]. by rewrite Hc, Hc'. Qed.

Lemma rstrip_cons_nonempty c s :
  rstrip s ≠ [] → rstrip (c :: s) = c :: rstrip s.
Proof. intros Hs. simpl. by destruct (rstrip s). Qed.

(** The words read from [s], joined by one space, against the run
    collapsing of the specification: with a word [w] under way, and
    just after a white-space character. *)
Lemma join_split_collapse s :
  (∀ w, w ≠ [] →
     join (str " ") (split_from w s) = w ++ rstrip (collapse_runs s))
  ∧ (∀ c, isspace c = true →
       rstrip (collapse_runs (c :: s))
       = match split_from [] s with
         | [] => []
         | ps => str " " ++ join (str " ") ps
         end).
Proof.
  induction s as [|c' s [IHw IHc]].
  - split.
    + intros w Hw. simpl. destruct w; [done|]. simpl. by rewrite app_nil_r.
    + intros c Hc. simpl. rewrite Hc. done.
  - split.
    + intros w Hw. cbn [split_from].
      destruct (isspace c') eqn:Hc'.
      * rewrite (IHc c' Hc').
        destruct w as [|x w]; [done|].
        rewrite join_cons. destruct (split_from [] s); [by rewrite app_nil_r|done].
      * rewrite IHw by (by destruct w).
        rewrite collapse_runs_nonspace, rstrip_cons_nonspace by done.
        by rewrite <- app_assoc.
    + intros c Hc. cbn [split_from].
      destruct (isspace c') eqn:Hc'.
      * rewrite collapse_runs_space_space by done. by apply IHc.
      * rewrite collapse_runs_space_word by done.
        rewrite rstrip_cons_nonempty
          by (rewrite rstrip_cons_nonspace; done).
        rewrite rstrip_cons_nonspace by done.
        change ([] ++ [c']) with [c'].
        pose proof (split_from_nonempty [c'] s) as Hne.
        pose proof (IHw [c'] ltac:(done)) as E.
        change ([c'] ++ rstrip (collapse_runs s))
          with (c' :: rstrip (collapse_runs s)) in E.
        rewrite <- E.
        destruct (split_from [c'] s); [by destruct Hne|done].
Qed.

Lemma lstrip_join_split s :
  lstrip (join (str " ") (split s)) = join (str " ") (split s).
Proof.
  unfold split. induction s as [|c s IH]; [done|].
  cbn [split_from]. destruct (isspace c) eqn:Hc; [done|].
  rewrite (proj1 (join_split_collapse s)) by done.
  simpl. by rewrite Hc.
Qed.

(** [" ".join(s.split())] collapses the runs of white space and
    strips both ends. *)
Lemma join_split_spec s :
  join (str " ") (split s) = lstrip (rstrip (collapse_runs s)).
Proof.
  destruct s as [|c s]; [done|].
  destruct (isspace c) eqn:Hc.
  - rewrite (proj2 (join_split_collapse s)) by done.
    rewrite <- (lstrip_join_split (c :: s)).
    unfold split. cbn [split_from]. rewrite Hc.
    destruct (split_from [] s) eqn:Hs; [done|].
    done.
  - rewrite collapse_runs_nonspace, rstrip_cons_nonspace by done.
    cbn [lstrip]. rewrite Hc.
    unfold split. cbn [split_from]. rewrite Hc.
    by rewrite (proj1 (join_split_collapse s)).
Qed.

(** *** Case folding *)

Lemma find_none_Forall {B} (f : B → bool) (l : list B) :
  Forall (λ x, f x = false) l → find f l = None.
Proof. induction 1 as [|x l Hx _ IH]; [done|]. simpl. by rewrite Hx. Qed.

Lemma in_run_source c r : in_run c r = true → c ∈ run_sources r.
Proof.
  destruct r as [[[first count] stride] target]. unfold in_run, run_sources.
  intros [[Hlo Hhi]%andb_true_iff Hmod]%andb_true_iff.
  apply N.leb_le in Hlo. apply N.ltb_lt in Hhi. apply N.eqb_eq in Hmod.
  assert (Hs : stride ≠ 0%N) by (intros ->; lia).
  apply N.Div0.div_exact in Hmod.
  apply list_elem_of_fmap. exists (N.to_nat ((c - first) / stride)).
  split; [rewrite N2Nat.id; lia|].
  apply elem_of_seq. split; [lia|].
  assert ((c - first) / stride < count)%N; [|lia].
  apply N.Div0.div_lt_upper_bound; lia.
Qed.

Lemma fold_char_not_source c : c ∉ casefold_sources → fold_char c = [c].
Proof.
  intros Hc. unfold fold_char.
  rewrite find_none_Forall.
  - rewrite find_none_Forall; [done|].
    apply Forall_forall. intros r Hr.
    destruct (in_run c r) eqn:Hin; [|done].
    destruct Hc. unfold casefold_sources. apply elem_of_app. right.
    apply list_elem_of_In, in_flat_map. exists r.
    split; apply list_elem_of_In; [done|]. by apply in_run_source.
  - apply Forall_forall. intros e He.
    destruct (N.eqb_spec (fst e) c) as [<-|]; [|done].
    destruct Hc. unfold casefold_sources. apply elem_of_app. left.
    by apply list_elem_of_fmap_2.
Qed.

Lemma fold_char_ok_all c : fold_char_ok c = true.
Proof.
  destruct (decide (c ∈ casefold_sources)) as [Hin|Hout].
  - assert (Hall : forallb fold_char_ok casefold_sources = true)
      by (vm_compute; reflexivity).
    rewrite forallb_forall in Hall. by apply Hall, list_elem_of_In.
  - assert (Hc : fold_char c = [c]) by (by apply fold_char_not_source).
    unfold fold_char_ok. rewrite Hc.
    assert (Hcc : casefold [c] = [c]) by (simpl; rewrite Hc; done).
    rewrite Hcc, (bool_decide_eq_true_2 _ eq_refl).
    destruct (isspace c) eqn:Hs; simpl.
    + done.
    + by rewrite Hs.
Qed.

Lemma fold_char_idem c : casefold (fold_char c) = fold_char c.
Proof.
  pose proof (fold_char_ok_all c) as [H _]%andb_true_iff.
  by apply bool_decide_eq_true in H.
Qed.

Lemma fold_char_space c : isspace c = true → fold_char c = [c].
Proof.
  intros Hc. pose proof (fold_char_ok_all c) as [_ H]%andb_true_iff.
  rewrite Hc in H. by apply bool_decide_eq_true in H.
Qed.

Lemma fold_char_nonspace c :
  isspace c = false →
  Forall (λ x, isspace x = false) (fold_char c) ∧ fold_char c ≠ [].
Proof.
  intros Hc. pose proof (fold_char_ok_all c) as [_ H]%andb_true_iff.
  rewrite Hc in H. apply andb_true_iff in H as [Hall Hne].
  split.
  - apply Forall_forall. intros x Hx%list_elem_of_In.
    rewrite forallb_forall in Hall. by apply negb_true_iff, Hall.
  - apply negb_true_iff, bool_decide_eq_false in Hne. done.
Qed.

Lemma casefold_app s1 s2 : casefold (s1 ++ s2) = casefold s1 ++ casefold s2.
Proof. apply flat_map_app. Qed.

Lemma casefold_idem s : casefold (casefold s) = casefold s.
Proof.
  induction s as [|c s IH]; [done|]. simpl.
  by rewrite casefold_app, fold_char_idem, IH.
Qed.

(** *** Case folding and white space commute *)

Lemma split_from_app_nonspace w p s :
  Forall (λ x, isspace x = false) p →
  split_from w (p ++ s) = split_from (w ++ p) s.
Proof.
  intros Hp. revert w. induction Hp as [|x p Hx _ IH]; intros w.
  - by rewrite app_nil_r.
  - simpl. rewrite Hx, IH, <- app_assoc. done.
Qed.

Lemma casefold_nil_inv s : casefold s = [] → s = [].
Proof.
  destruct s as [|c s]; [done|]. simpl. intros [Hc _]%app_eq_nil.
  destruct (isspace c) eqn:Hs.
  - by rewrite fold_char_space in Hc.
  - by destruct (fold_char_nonspace c Hs).
Qed.

Lemma split_from_casefold w s :
  split_from (casefold w) (casefold s) = map casefold (split_from w s).
Proof.
  revert w. induction s as [|c s IH]; intros w.
  - change (casefold []) with (@nil N). cbn [split_from map].
    destruct w as [|x w]; [done|].
    cbn [map]. destruct (casefold (x :: w)) eqn:E; [|done].
    by apply casefold_nil_inv in E.
  - change (casefold (c :: s)) with (fold_char c ++ casefold s).
    cbn [split_from]. destruct (isspace c) eqn:Hc.
    + rewrite fold_char_space by done. cbn [app split_from]. rewrite Hc.
      pose proof (IH []) as IH0. change (casefold []) with (@nil N) in IH0.
      rewrite IH0.
      destruct w as [|x w]; [done|].
      cbn [map]. destruct (casefold (x :: w)) eqn:E; [|done].
      by apply casefold_nil_inv in E.
    + destruct (fold_char_nonspace c Hc) as [Hall _].
      rewrite split_from_app_nonspace by done.
      rewrite <- IH, casefold_app. simpl. by rewrite app_nil_r.
Qed.

Lemma join_casefold ps :
  casefold (join (str " ") ps) = join (str " ") (map casefold ps).
Proof.
  induction ps as [|p ps IH]; [done|].
  rewrite map_cons, !join_cons. destruct ps as [|q ps]; [done|].
  rewrite !casefold_app, IH. done.
Qed.

Lemma collapse_casefold s :
  join (str " ") (split (casefold s)) = casefold (join (str " ") (split s)).
Proof.
  unfold split. change [] with (casefold []) at 1.
  by rewrite split_from_casefold, join_casefold.
Qed.

(** *** Splitting what was joined *)

Lemma split_from_words w s :
  Forall (λ x, isspace x = false) w → Forall is_word (split_from w s).
Proof.
  revert w. induction s as [|c s IH]; intros w Hw; simpl.
  - destruct w; [done|]. constructor; [by split|constructor].
  - destruct (isspace c) eqn:Hc.
    + destruct w; [by apply IH|]. constructor; [by split|by apply IH].
    + apply IH. apply Forall_app. split; [done|]. by constructor.
Qed.

Lemma split_join_words ps :
  Forall is_word ps → split (join (str " ") ps) = ps.
Proof.
  unfold split. induction 1 as [|p ps [Hne Hp] _ IH]; [done|].
  rewrite join_cons. destruct ps as [|q ps].
  - pose proof (split_from_app_nonspace [] p [] Hp) as E.
    rewrite app_nil_r in E. rewrite E. simpl. by destruct p.
  - rewrite split_from_app_nonspace by done.
    change (split_from ([] ++ p) (str " " ++ join (str " ") (q :: ps)))
      with (match p with
            | [] => split_from [] (join (str " ") (q :: ps))
            | _ => p :: split_from [] (join (str " ") (q :: ps))
            end).
    destruct p; [done|]. by rewrite IH.
Qed.

Lemma collapse_idem s :
  join (str " ") (split (join (str " ") (split s))) = join (str " ") (split s).
Proof. rewrite split_join_words; [done|]. by apply split_from_words. Qed.

Lemma normalize_line_idem ic iw line :
  normalize_line ic iw (normalize_line ic iw line) = normalize_line ic iw line.
Proof.
  unfold normalize_line. destruct iw, ic; try done.
  - by rewrite collapse_casefold, collapse_idem, casefold_idem.
  - apply collapse_idem.
  - apply casefold_idem.
Qed.

Lemma normalize_line_spec ic iw line :
  normalize_line ic iw line = spec_normalize_line ic iw line.
Proof.
  unfold normalize_line, spec_normalize_line.
  destruct iw; [by rewrite join_split_spec|done].
Qed.
End normaliser.

(** C2.  [normalize_lines] maps every line as the specification words
    it: with [ignore_ws], each maximal run of white space becomes one
    space and the ends are stripped; with [ignore_case], the result is
    then case folded, by the Unicode folding and not by ASCII
    lower-casing (the sharp s folds to "ss", a capital E with acute to
    the small one). *)
Theorem normalize_lines_refines_spec (lines : list pystr) (ic iw : bool) :
  normalize_lines lines ic iw = map (spec_normalize_line ic iw) lines
  ∧ normalize_lines [[223%N]] true false = [str "ss"]
  ∧ normalize_lines [[201%N]] true false = [[233%N]].
Proof.
  split; [|by vm_compute].
  rewrite normalize_lines_map. apply map_ext, normalize_line_spec.
Qed.

(** C3.  [normalize_lines] is a total function; its result has the
    length of its input, line [i] of the result is the image of line
    [i] of the input, and the empty sequence is mapped to itself. *)
Theorem normalize_lines_length (lines : list pystr) (ic iw : bool) :
  length (normalize_lines lines ic iw) = length lines
  ∧ (∀ i : nat, normalize_lines lines ic iw !! i
                = normalize_line ic iw <$> lines !! i)
  ∧ normalize_lines [] ic iw = [].
Proof.
  rewrite normalize_lines_map. split; [apply length_map|].
  split; [|done]. intros i. apply list_lookup_fmap.
Qed.

(** C4.  The normaliser is idempotent, for every setting of the two
    options. *)
Theorem normalize_lines_idempotent (lines : list pystr) (ic iw : bool) :
  normalize_lines (normalize_lines lines ic iw) ic iw
  = normalize_lines lines ic iw.
Proof.
  rewrite !normalize_lines_map, map_map.
  apply map_ext, normalize_line_idem.
Qed.

(** C10.  With both options off the normaliser is the identity. *)
Theorem normalize_lines_default_identity (lines : list pystr) :
  normalize_lines lines false false = lines.
Proof. rewrite normalize_lines_map. apply map_id. Qed.

(** * Loops *)

Section loops.
Context {S X : Type}.

Lemma for_app (xs ys : list X) (body : X → S → option S) s :
  for_ (xs ++ ys) body s = s' ← for_ xs body s; for_ ys body s'.
Proof.
  revert s. induction xs as [|x xs IH]; intros s; simpl; [done|].
  destruct (body x s); simpl; [apply IH|done].
Qed.

Lemma for_seq_inv (Inv : nat → S → Prop) lo n
    (body : nat → S → option S) s :
  Inv lo s →
  (∀ i s, lo ≤ i < lo + n → Inv i s →
     ∃ s', body i s = Some s' ∧ Inv (i + 1) s') →
  ∃ s', for_ (seq lo n) body s = Some s' ∧ Inv (lo + n) s'.
Proof.
  revert lo s. induction n as [|n IH]; intros lo s Hs Hbody; simpl.
  - exists s. by rewrite Nat.add_0_r.
  - destruct (Hbody lo s) as (s' & -> & Hs'); [lia|done|]. simpl.
    replace (lo + Datatypes.S n) with (Datatypes.S lo + n) by lia.
    apply IH; [by rewrite Nat.add_1_r in Hs'|].
    intros i t Hi. apply Hbody. lia.
Qed.

(** A [for] loop over [range(lo, hi)] keeps an invariant which each
    pass carries from [i] to [i + 1]. *)
Lemma for_range_inv (Inv : nat → S → Prop) lo hi
    (body : nat → S → option S) s :
  lo ≤ hi → Inv lo s →
  (∀ i s, lo ≤ i < hi → Inv i s → ∃ s', body i s = Some s' ∧ Inv (i + 1) s') →
  ∃ s', for_ (range lo hi) body s = Some s' ∧ Inv hi s'.
Proof.
  intros Hle Hs Hbody. unfold range.
  destruct (for_seq_inv Inv lo (hi - lo) body s) as (s' & Hfor & Hs');
    [done|intros i t Hi; apply Hbody; lia|].
  exists s'. split; [done|]. by replace hi with (lo + (hi - lo)) by lia.
Qed.

(** A [while] loop with an invariant and a measure that the body
    decreases, given as many passes as the measure. *)
Lemma while_inv (Inv : S → Prop) (μ : S → nat) fuel
    (cond : S → option bool) (body : S → option S) s :
  Inv s → μ s ≤ fuel →
  (∀ s, Inv s → ∃ c, cond s = Some c ∧
     (c = true → ∃ s', body s = Some s' ∧ Inv s' ∧ μ s' < μ s)) →
  ∃ s', while fuel cond body s = Some s' ∧ Inv s' ∧ cond s' = Some false.
Proof.
  intros Hs Hfuel Hstep. revert s Hs Hfuel.
  induction fuel as [|fuel IH]; intros s Hs Hfuel.
  - destruct (Hstep s Hs) as (c & Hc & Hbody). simpl. rewrite Hc. simpl.
    destruct c; [|by exists s].
    destruct Hbody as (s' & _ & _ & Hlt); [done|lia].
  - destruct (Hstep s Hs) as (c & Hc & Hbody). simpl. rewrite Hc. simpl.
    destruct c; [|by exists s].
    destruct Hbody as (s' & -> & Hs' & Hlt); [done|]. simpl.
    apply IH; [done|lia].
Qed.

Lemma while_false fuel (cond : S → option bool) body (s : S) :
  cond s = Some false → while fuel cond body s = Some s.
Proof. intros Hc. destruct fuel; simpl; by rewrite Hc. Qed.
End loops.

(** * [SequenceMatcher] *)

(** Lookups whose indices agree by arithmetic. *)
Ltac lookup_eq H :=
  match type of H with
  | ?a !! ?x = ?b !! ?y =>
      match goal with
      | |- a !! ?x' = b !! ?y' =>
          replace x' with x by lia; replace y' with y by lia; exact H
      end
  end.

Ltac lookup_at H :=
  match type of H with
  | ?l !! ?x = _ =>
      match goal with
      | |- context [l !! ?x'] => replace x' with x by lia; rewrite H
      end
  end.

Section matcher.
Context {A : Type} `{!EqDecision A, !Countable A}.
Implicit Types (a b : list A) (x y : A) (self : SequenceMatcher A).

(** ** [__chain_b] *)

Lemma elem_of_positions x b j : j ∈ positions x b ↔ b !! j = Some x.
Proof.
  unfold positions. rewrite list_elem_of_filter, elem_of_seq. split; [tauto|].
  intros Hj. split; [done|]. apply lookup_lt_Some in Hj. lia.
Qed.

Lemma filter_ext_in {B} (P Q : B → Prop) `{!∀ z, Decision (P z)}
    `{!∀ z, Decision (Q z)} (l : list B) :
  (∀ z, z ∈ l → P z ↔ Q z) → filter P l = filter Q l.
Proof.
  induction l as [|z l IH]; intros HPQ; [done|].
  rewrite !filter_cons.
  rewrite IH by (intros; apply HPQ; by right).
  destruct (decide (P z)) as [HP|HP], (decide (Q z)) as [HQ|HQ];
    try done; exfalso; apply HPQ in HP || apply HPQ in HQ; done || by left.
Qed.

Lemma positions_snoc x b y :
  positions x (b ++ [y])
  = positions x b ++ (if decide (x = y) then [length b] else []).
Proof.
  unfold positions. rewrite length_app. simpl.
  rewrite seq_app, filter_app. simpl. f_equal.
  - apply filter_ext_in. intros j [_ Hj]%elem_of_seq.
    by rewrite lookup_app_l by lia.
  - rewrite filter_cons, filter_nil.
    rewrite lookup_app_r, Nat.sub_diag by lia. simpl.
    destruct (decide (Some y = Some x)), (decide (x = y)); congruence.
Qed.

Lemma positions_lt x b : Forall (λ j, j < length b) (positions x b).
Proof.
  apply Forall_forall. intros j Hj%elem_of_positions.
  by apply lookup_lt_Some in Hj.
Qed.

Lemma enumerate_snoc b y : enumerate (b ++ [y]) = enumerate b ++ [(length b, y)].
Proof.
  unfold enumerate. rewrite length_app, seq_app.
  by rewrite zip_with_app by (by rewrite length_seq).
Qed.

Lemma b2j_all_lookup b x :
  b2j_all b !! x = match positions x b with [] => None | ps => Some ps end.
Proof.
  induction b as [|y b IH] using rev_ind; [done|].
  unfold b2j_all in *. rewrite enumerate_snoc, foldl_app. simpl.
  rewrite positions_snoc. destruct (decide (x = y)) as [->|Hne].
  - rewrite lookup_insert_eq, IH.
    destruct (positions y b); [done|]. done.
  - rewrite lookup_insert_ne by done. by rewrite IH, app_nil_r.
Qed.

Lemma chain_b_lookup isjunk autojunk b x idxs :
  (chain_b isjunk autojunk b).1.1 !! x = Some idxs → idxs = positions x b.
Proof.
  unfold chain_b, del_keys. cbn [fst].
  intros [[Hx _]%map_lookup_filter_Some _]%map_lookup_filter_Some.
  fold (b2j_all b) in Hx. rewrite b2j_all_lookup in Hx.
  destruct (positions x b); congruence.
Qed.

Lemma new_a isjunk a b : sm_a (new isjunk a b) = a.
Proof.
  unfold new, set_seqs, set_seq2. simpl.
  by destruct (chain_b isjunk true b) as [[??]?].
Qed.

Lemma new_b isjunk a b : sm_b (new isjunk a b) = b.
Proof.
  unfold new, set_seqs, set_seq2. simpl.
  by destruct (chain_b isjunk true b) as [[??]?].
Qed.

Lemma new_b2j isjunk a b : sm_b2j (new isjunk a b) = (chain_b isjunk true b).1.1.
Proof.
  unfold new, set_seqs, set_seq2. simpl.
  by destruct (chain_b isjunk true b) as [[??]?].
Qed.

Lemma new_bjunk_None a b : sm_bjunk (new None a b) = ∅.
Proof. unfold new, set_seqs, set_seq2, chain_b. simpl. done. Qed.

Lemma new_b2j_sound isjunk a b : b2j_sound (new isjunk a b).
Proof.
  intros x idxs. rewrite new_b2j, new_b. apply chain_b_lookup.
Qed.

(** ** [find_longest_match] returns a match inside the ranges *)

Lemma row_ok_empty a b alo blo bhi i : row_ok a b alo blo bhi i ∅.
Proof. intros j k. by rewrite lookup_empty. Qed.

Section rows.
Context (a b : list A) (alo ahi blo bhi i : nat) (ai : A).
Context (j2len : gmap nat nat).
Hypothesis Hi : alo ≤ i < ahi.
Hypothesis Hai : a !! i = Some ai.
Hypothesis Hprev : row_ok a b alo blo bhi i j2len.

(** The entry that the cell [(i, j)] adds to [newj2len]. *)
Lemma row_entry j :
  blo ≤ j < bhi → b !! j = Some ai →
  let k := j2len_get_pred j2len j + 1 in
  1 ≤ k ∧ k ≤ i + 1 - alo ∧ k ≤ j + 1 - blo
  ∧ ∀ t, t < k → a !! (i + 1 - k + t) = b !! (j + 1 - k + t).
Proof.
  intros Hj Hbj k. subst k. unfold j2len_get_pred.
  assert (Hbase : ∀ t, t < 0 + 1 →
            a !! (i + 1 - (0 + 1) + t) = b !! (j + 1 - (0 + 1) + t)).
  { intros t Ht. lookup_at Hai. by lookup_at Hbj. }
  destruct j as [|j']; [repeat split; try lia; done|].
  destruct (j2len !! j') as [k'|] eqn:Hk'; simpl;
    [|repeat split; try lia; done].
  destruct (Hprev j' k' Hk') as (H1 & H2 & H3 & H4 & Hm).
  repeat split; try lia.
  intros t Ht. destruct (decide (t < k')) as [Hlt|Hge].
  - specialize (Hm t Hlt). lookup_eq Hm.
  - lookup_at Hai. by lookup_at Hbj.
Qed.

Lemma match_row_valid js best newj2len :
  Forall (λ j, b !! j = Some ai) js →
  valid_match a b alo ahi blo bhi best →
  row_ok a b alo blo bhi (i + 1) newj2len →
  let '(best', newj2len') := match_row blo bhi i j2len js (best, newj2len) in
  valid_match a b alo ahi blo bhi best'
  ∧ row_ok a b alo blo bhi (i + 1) newj2len'.
Proof.
  intros Hjs. revert best newj2len.
  induction Hjs as [|j js Hbj _ IH]; intros best new Hbest Hnew; [done|].
  cbn [match_row].
  destruct (Nat.ltb_spec j blo) as [Hlo|Hlo]; [by apply IH|].
  destruct (Nat.leb_spec bhi j) as [Hhi|Hhi]; [done|].
  destruct best as [[besti bestj] bestsize].
  destruct (row_entry j ltac:(lia) Hbj) as (H1 & H2 & H3 & Hm).
  set (k := j2len_get_pred j2len j + 1) in *.
  assert (Hnew' : row_ok a b alo blo bhi (i + 1) (<[j:=k]> new)).
  { intros j0 k0. rewrite lookup_insert. case_decide as Hj0.
    - intros [= <-]. subst j0. repeat split; try lia. done.
    - apply Hnew. }
  destruct (Nat.ltb_spec bestsize k) as [Hk|Hk]; apply IH; try done.
  repeat split; try lia. done.
Qed.
End rows.

Lemma positions_Forall x b : Forall (λ j, b !! j = Some x) (positions x b).
Proof. apply Forall_forall. intros j. apply elem_of_positions. Qed.

Lemma match_rows_valid self alo ahi blo bhi :
  b2j_sound self →
  alo ≤ ahi ≤ length (sm_a self) → blo ≤ bhi →
  ∃ best j2len,
    for_ (range alo ahi) (match_rows_body self blo bhi) ((alo, blo, 0), ∅)
    = Some (best, j2len)
    ∧ valid_match (sm_a self) (sm_b self) alo ahi blo bhi best.
Proof.
  intros Hsound Ha Hb.
  destruct (for_range_inv
    (λ i st, valid_match (sm_a self) (sm_b self) alo ahi blo bhi st.1
             ∧ row_ok (sm_a self) (sm_b self) alo blo bhi i st.2)
    alo ahi (match_rows_body self blo bhi) ((alo, blo, 0), ∅))
    as ([best j2len] & Hfor & Hbest & _).
  - lia.
  - split; [|apply row_ok_empty]. simpl. repeat split; try lia.
  - intros i [best j2len] Hi [Hbest Hrow]. simpl in Hbest, Hrow.
    unfold match_rows_body.
    destruct (lookup_lt_is_Some_2 (sm_a self) i) as [ai Hai]; [lia|].
    rewrite Hai. simpl.
    pose proof (match_row_valid (sm_a self) (sm_b self) alo ahi blo bhi i ai
                  j2len Hi Hai Hrow (default [] (sm_b2j self !! ai)) best ∅)
      as Hstep.
    destruct (match_row blo bhi i j2len _ (best, ∅)) as [best' new'].
    eexists; split; [done|]. simpl. apply Hstep; [|done|apply row_ok_empty].
    destruct (sm_b2j self !! ai) as [idxs|] eqn:Hidxs; [|constructor].
    rewrite (Hsound ai idxs Hidxs). apply positions_Forall.
  - by exists best, j2len.
Qed.

(** The four loops that extend a match keep it a match. *)
Lemma extend_valid self alo ahi blo bhi junk m :
  ahi ≤ length (sm_a self) → bhi ≤ length (sm_b self) →
  valid_match (sm_a self) (sm_b self) alo ahi blo bhi m →
  ∃ m', extend self alo ahi blo bhi junk m = Some m'
        ∧ valid_match (sm_a self) (sm_b self) alo ahi blo bhi m'.
Proof.
  intros Ha Hb Hm. unfold extend.
  destruct (while_inv
    (valid_match (sm_a self) (sm_b self) alo ahi blo bhi)
    (λ m, m.1.1 - alo) (m.1.1 - alo)
    (extend_left_cond self alo blo junk) extend_left_body m)
    as (m1 & -> & Hm1 & _); [done|done| |].
  { intros [[bi bj] bs] (H1 & H2 & H3 & H4 & Hmatch).
    unfold extend_left_cond.
    destruct (Nat.ltb_spec alo bi), (Nat.ltb_spec blo bj); simpl;
      try (by eexists).
    destruct (lookup_lt_is_Some_2 (sm_b self) (bj - 1)) as [y Hy]; [lia|].
    destruct (lookup_lt_is_Some_2 (sm_a self) (bi - 1)) as [x Hx]; [lia|].
    rewrite Hy. simpl. case_bool_decide; [|by eexists].
    rewrite Hx. simpl. eexists; split; [done|].
    intros Hxy%bool_decide_eq_true. subst y.
    eexists; split; [done|]. split; [|simpl; lia].
    repeat split; try lia.
    intros t Ht. destruct t as [|t].
    - lookup_at Hx. by lookup_at Hy.
    - specialize (Hmatch t ltac:(lia)). lookup_eq Hmatch. }
  simpl.
  destruct (while_inv
    (valid_match (sm_a self) (sm_b self) alo ahi blo bhi)
    (λ m, ahi - (m.1.1 + m.2)) (ahi - (m1.1.1 + m1.2))
    (extend_right_cond self ahi bhi junk) extend_right_body m1)
    as (m2 & -> & Hm2 & _); [done|done| |by exists m2].
  intros [[bi bj] bs] (H1 & H2 & H3 & H4 & Hmatch).
  unfold extend_right_cond.
  destruct (Nat.ltb_spec (bi + bs) ahi), (Nat.ltb_spec (bj + bs) bhi); simpl;
    try (by eexists).
  destruct (lookup_lt_is_Some_2 (sm_b self) (bj + bs)) as [y Hy]; [lia|].
  destruct (lookup_lt_is_Some_2 (sm_a self) (bi + bs)) as [x Hx]; [lia|].
  rewrite Hy. simpl. case_bool_decide; [|by eexists].
  rewrite Hx. simpl. eexists; split; [done|].
  intros Hxy%bool_decide_eq_true. subst y.
  eexists; split; [done|]. split; [|simpl; lia].
  repeat split; try lia.
  intros t Ht. destruct (decide (t < bs)) as [Hlt|Hge].
  - by apply Hmatch.
  - lookup_at Hx. by lookup_at Hy.
Qed.

Lemma find_longest_match_valid self alo ahi blo bhi :
  b2j_sound self →
  alo ≤ ahi ≤ length (sm_a self) → blo ≤ bhi ≤ length (sm_b self) →
  ∃ m, find_longest_match self alo ahi blo bhi = Some m
       ∧ valid_match (sm_a self) (sm_b self) alo ahi blo bhi m.
Proof.
  intros Hsound Ha Hb. unfold find_longest_match.
  destruct (match_rows_valid self alo ahi blo bhi)
    as (best & j2len & -> & Hbest); [done|done|lia|]. simpl.
  destruct (extend_valid self alo ahi blo bhi false best)
    as (m1 & -> & Hm1); [lia|lia|done|]. simpl.
  apply extend_valid; [lia|lia|done].
Qed.
End matcher.

(** * A sequence against itself *)

Section identical.
Context {A : Type} `{!EqDecision A, !Countable A}.
Context (L : list A) (b2j : gmap A (list nat)).
Hypothesis Hsound : ∀ x idxs, b2j !! x = Some idxs → idxs = positions x L.

Local Abbreviation run := (common_run L b2j).
Local Abbreviation row_diag := (row_diag L b2j).
Local Abbreviation rows_diag := (rows_diag L b2j).

Lemma run_sym i j : run i j = run j i.
Proof.
  revert j. induction i as [|i IH]; intros [|j]; simpl; try done.
  destruct (L !! i) as [x|], (L !! j) as [y|]; try done.
  rewrite IH. repeat case_decide; naive_solver.
Qed.

Lemma run_0_r i : run i 0 = 0.
Proof. by destruct i. Qed.

Lemma run_le i j : run i j ≤ i.
Proof.
  revert j. induction i as [|i IH]; intros [|j]; simpl; try lia.
  destruct (L !! i) as [x|], (L !! j) as [y|]; try lia.
  case_decide; [|lia]. specialize (IH j). lia.
Qed.

Lemma run_le_diag i j : run i j ≤ run i i.
Proof.
  revert j. induction i as [|i IH]; intros [|j]; simpl; try lia.
  destruct (L !! i) as [x|], (L !! j) as [y|]; try lia.
  case_decide as Hxy; [|lia]. destruct Hxy as [-> Hy].
  rewrite decide_True by done. specialize (IH j). lia.
Qed.

Lemma run_cell i j x :
  L !! i = Some x → L !! j = Some x → is_Some (b2j !! x) →
  run (i + 1) (j + 1) = run i j + 1.
Proof.
  intros Hi Hj Hx. rewrite !Nat.add_1_r. simpl. rewrite Hi, Hj.
  by rewrite decide_True.
Qed.

Lemma run_no_cell i j x :
  L !! i = Some x → L !! j ≠ Some x → run (i + 1) (j + 1) = 0.
Proof.
  intros Hi Hj. rewrite !Nat.add_1_r. simpl. rewrite Hi.
  destruct (L !! j) as [y|]; [|done]. rewrite decide_False; naive_solver.
Qed.

Lemma run_popular i j x :
  L !! i = Some x → b2j !! x = None → run (i + 1) (j + 1) = 0.
Proof.
  intros Hi Hx. rewrite !Nat.add_1_r. simpl. rewrite Hi.
  destruct (L !! j) as [y|]; [|done]. rewrite decide_False; [done|].
  intros [_ [? ?]]. congruence.
Qed.

Lemma match_row_diag i ai j2len m lo st :
  L !! i = Some ai → is_Some (b2j !! ai) →
  (∀ j, j2len_get_pred j2len j = run i j) →
  lo + m = length L →
  row_diag i ai lo st →
  row_diag i ai (length L)
    (match_row 0 (length L) i j2len
       (filter (λ j, L !! j = Some ai) (seq lo m)) st).
Proof.
  intros Hai Hnp Hprev. revert lo st.
  induction m as [|m IH]; intros lo st Hlo Hst.
  { simpl. by replace (length L) with lo by lia. }
  cbn [seq]. rewrite filter_cons.
  assert (Hskip : L !! lo ≠ Some ai → row_diag i ai (Datatypes.S lo) st).
  { intros Hne. destruct st as [[[bi bj] bs] new].
    destruct Hst as (H1 & H2 & H3 & H4 & H5). repeat split; try done.
    - intros j Hj Hj'. apply H4; [|done].
      destruct (decide (j = lo)) as [->|]; [done|lia].
    - intros j. rewrite H5.
      repeat case_decide; try done; exfalso;
        destruct (decide (j = lo)) as [->|]; naive_solver lia. }
  destruct (decide (L !! lo = Some ai)) as [Hcell|Hne];
    [|apply IH; [lia|by apply Hskip]].
  cbn [match_row]. change (lo <? 0) with false. cbv iota.
  destruct (Nat.leb_spec (length L) lo) as [?|_]; [lia|].
  destruct st as [[[bi bj] bs] new].
  destruct Hst as (H1 & H2 & H3 & H4 & H5).
  rewrite Hprev, <- (run_cell i lo ai) by done.
  set (k := run (i + 1) (lo + 1)).
  assert (Hnew : ∀ j, <[lo:=k]> new !! j
                      = if decide (j < Datatypes.S lo ∧ L !! j = Some ai)
                        then Some (run (i + 1) (j + 1)) else None).
  { intros j. rewrite lookup_insert. case_decide as Hj.
    - subst j. rewrite decide_True; [done|]. split; [lia|done].
    - rewrite H5. repeat case_decide; try done; exfalso; naive_solver lia. }
  destruct (Nat.ltb_spec bs k) as [Hk|Hk]; apply IH; try lia.
  - (* a longer match: it lies on the diagonal *)
    assert (lo = i) as ->.
    { destruct (Nat.lt_trichotomy lo i) as [Hlt|[->|Hgt]]; [|done|].
      - specialize (H3 (lo + 1) (i + 1) ltac:(lia)).
        subst k. rewrite run_sym in Hk. lia.
      - specialize (H4 i Hgt Hai). pose proof (run_le_diag (i + 1) (lo + 1)).
        subst k. lia. }
    pose proof (run_le (i + 1) (i + 1)) as Hle. fold k in Hle.
    repeat split; try lia; try done.
    + intros i' j Hi'. specialize (H3 i' j Hi'). lia.
    + intros j Hj Hj'. destruct (decide (j = i)) as [->|]; [done|].
      specialize (H4 j ltac:(lia) Hj'). lia.
  - repeat split; try done.
    intros j Hj Hj'. destruct (decide (j = lo)) as [->|]; [done|].
    apply H4; [lia|done].
Qed.

Context (self : SequenceMatcher A).
Hypothesis Hself_a : sm_a self = L.
Hypothesis Hself_b : sm_b self = L.
Hypothesis Hself_b2j : sm_b2j self = b2j.
Hypothesis Hself_bjunk : sm_bjunk self = ∅.

Lemma match_rows_diag :
  ∃ d k j2len,
    for_ (range 0 (length L)) (match_rows_body self 0 (length L)) ((0, 0, 0), ∅)
    = Some ((d, d, k), j2len)
    ∧ d + k ≤ length L.
Proof.
  destruct (for_range_inv rows_diag 0 (length L)
              (match_rows_body self 0 (length L)) ((0, 0, 0), ∅))
    as ([[[bi bj] bs] j2len] & Hfor & -> & Hle & _); [lia| | |by eauto].
  - repeat split; try done.
    + intros i' j Hi'. replace i' with 0 by lia. done.
    + by intros [|j].
  - intros i [[[bi bj] bs] j2len] Hi (H1 & H2 & H3 & H4).
    unfold match_rows_body. rewrite Hself_a, Hself_b2j.
    destruct (lookup_lt_is_Some_2 L i) as [ai Hai]; [lia|].
    rewrite Hai. simpl. eexists; split; [done|].
    destruct (b2j !! ai) as [idxs|] eqn:Hidxs; simpl.
    + rewrite (Hsound ai idxs Hidxs). unfold positions.
      pose proof (match_row_diag i ai j2len (length L) 0 ((bi, bj, bs), ∅)
                    Hai ltac:(by rewrite Hidxs) H4 ltac:(lia)) as Hrow.
      destruct (match_row _ _ _ _ _ _) as [[[bi' bj'] bs'] new].
      destruct Hrow as (H1' & H2' & H3' & H4' & H5').
      { repeat split; try done; lia. }
      repeat split; try done.
      * intros i' j Hi'. destruct (decide (i' ≤ i)); [by apply H3'|].
        replace i' with (i + 1) by lia. destruct j as [|j]; [rewrite run_0_r; lia|].
        rewrite <- (Nat.add_1_r j).
        destruct (decide (L !! j = Some ai)) as [Hj|Hj].
        -- apply H4'; [|done]. by apply lookup_lt_Some in Hj.
        -- rewrite (run_no_cell i j ai) by done. lia.
      * intros [|j]; [by rewrite Nat.add_1_r|]. simpl. rewrite H5'.
        rewrite <- (Nat.add_1_r j). case_decide as Hj; [done|].
        rewrite (run_no_cell i j ai); [done|done|].
        intros Hj'. apply Hj. split; [|done]. by apply lookup_lt_Some in Hj'.
    + repeat split; try done; try lia.
      * intros i' j Hi'. destruct (decide (i' ≤ i)); [by apply H3|].
        replace i' with (i + 1) by lia. destruct j as [|j]; [rewrite run_0_r; lia|].
        rewrite <- (Nat.add_1_r j), (run_popular i j ai) by done. lia.
      * intros [|j]; [by rewrite Nat.add_1_r|]. simpl.
        by rewrite lookup_empty, <- (Nat.add_1_r j), (run_popular i j ai).
Qed.

Lemma isbjunk_identical x : isbjunk self x = false.
Proof.
  unfold isbjunk. rewrite Hself_bjunk. by apply bool_decide_eq_false_2.
Qed.

(** The longest match of a sequence with itself is the sequence. *)
Lemma find_longest_match_identical :
  find_longest_match self 0 (length L) 0 (length L) = Some (0, 0, length L).
Proof.
  unfold find_longest_match.
  destruct match_rows_diag as (d & k & j2len & -> & Hdk). simpl.
  assert (Hext : extend self 0 (length L) 0 (length L) false (d, d, k)
                 = Some (0, 0, length L)).
  { unfold extend.
    destruct (while_inv
      (λ m : Match, m.1.1 = m.1.2 ∧ m.1.1 + m.2 ≤ length L)
      (λ m, m.1.1 - 0) ((d, d, k).1.1 - 0)
      (extend_left_cond self 0 0 false) extend_left_body (d, d, k))
      as ([[bi bj] bs] & -> & [Hb Hle] & Hc); [done|done| |].
    { intros [[bi bj] bs] [Hb Hle]. simpl in Hb, Hle. subst bj.
      unfold extend_left_cond.
      destruct (Nat.ltb_spec 0 bi); simpl; [|by eexists].
      rewrite Hself_a, Hself_b.
      destruct (lookup_lt_is_Some_2 L (bi - 1)) as [y Hy]; [lia|].
      rewrite Hy. simpl. rewrite isbjunk_identical.
      rewrite bool_decide_eq_true_2 by done. simpl.
      eexists; split; [done|]. intros _.
      eexists; split; [done|]. simpl. lia. }
    simpl in Hb, Hle. subst bj.
    assert (bi = 0) as ->.
    { unfold extend_left_cond in Hc.
      destruct (Nat.ltb_spec 0 bi); [|lia]. simpl in Hc.
      rewrite Hself_a, Hself_b in Hc.
      destruct (lookup_lt_is_Some_2 L (bi - 1)) as [y Hy]; [lia|].
      rewrite Hy in Hc. simpl in Hc. rewrite isbjunk_identical in Hc.
      rewrite bool_decide_eq_true_2 in Hc by done. simpl in Hc.
      rewrite bool_decide_eq_true_2 in Hc by done. done. }
    simpl.
    destruct (while_inv
      (λ m : Match, m.1.1 = 0 ∧ m.1.2 = 0 ∧ m.2 ≤ length L)
      (λ m, length L - (m.1.1 + m.2)) (length L - bs)
      (extend_right_cond self (length L) (length L) false)
      extend_right_body (0, 0, bs))
      as ([[bi bj] bs'] & -> & (Hi & Hj & Hle') & Hc'); [done|done| |].
    { intros [[bi bj] bs'] (Hi & Hj & Hle'). simpl in Hi, Hj, Hle'. subst bi bj.
      unfold extend_right_cond. simpl.
      destruct (Nat.ltb_spec bs' (length L)); simpl; [|by eexists].
      rewrite Hself_a, Hself_b.
      destruct (lookup_lt_is_Some_2 L bs') as [y Hy]; [lia|].
      rewrite Hy. simpl. rewrite isbjunk_identical.
      rewrite bool_decide_eq_true_2 by done. simpl.
      eexists; split; [done|]. intros _.
      eexists; split; [done|]. simpl. lia. }
    simpl in Hi, Hj, Hle'. subst bi bj. f_equal. f_equal.
    unfold extend_right_cond in Hc'. simpl in Hc'.
    destruct (Nat.ltb_spec bs' (length L)); [|lia]. simpl in Hc'.
    rewrite Hself_a, Hself_b in Hc'.
    destruct (lookup_lt_is_Some_2 L bs') as [y Hy]; [lia|].
    rewrite Hy in Hc'. simpl in Hc'. rewrite isbjunk_identical in Hc'.
    rewrite bool_decide_eq_true_2 in Hc' by done. simpl in Hc'.
    rewrite bool_decide_eq_true_2 in Hc' by done. done. }
  rewrite Hext. simpl. unfold extend. simpl.
  apply while_false. unfold extend_right_cond. simpl.
  by rewrite Nat.ltb_irrefl.
Qed.
End identical.

(** * Matching blocks and opcodes in the boundary cases *)

Section blocks.
Context {A : Type} `{!EqDecision A, !Countable A}.
Implicit Types (self : SequenceMatcher A).

Lemma get_matching_blocks_no_match self i j :
  find_longest_match self 0 (length (sm_a self)) 0 (length (sm_b self))
  = Some (i, j, 0) →
  get_matching_blocks self
  = Some [(length (sm_a self), length (sm_b self), 0)].
Proof.
  intros Hfind. unfold get_matching_blocks.
  rewrite Nat.add_1_r. cbn [while blocks_cond fst]. simpl.
  rewrite Hfind. simpl. by rewrite while_false.
Qed.

Lemma get_matching_blocks_whole self n :
  length (sm_a self) = n → length (sm_b self) = n → n ≠ 0 →
  find_longest_match self 0 n 0 n = Some (0, 0, n) →
  get_matching_blocks self = Some [(0, 0, n); (n, n, 0)].
Proof.
  intros Ha Hb Hn Hfind. unfold get_matching_blocks. rewrite Ha, Hb.
  rewrite Nat.add_1_r. cbn [while blocks_cond fst]. simpl.
  rewrite Hfind. simpl.
  destruct (Nat.eqb_spec n 0) as [|_]; [done|]. simpl.
  rewrite Nat.ltb_irrefl. simpl.
  rewrite while_false by done. simpl.
  unfold collapse_adjacent. simpl.
  by destruct (Nat.eqb_spec n 0).
Qed.
End blocks.

(** * [Differ] *)

Lemma dump_from tag (x : list pystr) n lo acc :
  lo + n ≤ length x →
  for_ (seq lo n)
       (λ i out, xi ← x !! i; Some (out ++ [tag ++ str " " ++ xi])) acc
  = Some (acc ++ ((λ l, tag ++ str " " ++ l) <$> take n (drop lo x))).
Proof.
  revert lo acc. induction n as [|n IH]; intros lo acc Hn.
  - simpl. by rewrite app_nil_r.
  - destruct (lookup_lt_is_Some_2 x lo) as [l Hl]; [lia|].
    cbn [seq for_]. rewrite Hl. simpl. rewrite IH by lia.
    rewrite (drop_S _ _ _ Hl). simpl. by rewrite <- app_assoc.
Qed.

Lemma dump_slice tag (x : list pystr) lo hi :
  hi ≤ length x →
  dump tag x lo hi
  = Some ((λ l, tag ++ str " " ++ l) <$> take (hi - lo) (drop lo x)).
Proof.
  intros Hhi. unfold dump, range.
  destruct (decide (lo ≤ hi)) as [Hle|Hgt].
  - by rewrite dump_from by lia.
  - by replace (hi - lo) with 0 by lia.
Qed.

Lemma dump_all tag (x : list pystr) :
  dump tag x 0 (length x) = Some ((λ l, tag ++ str " " ++ l) <$> x).
Proof.
  rewrite dump_slice by done. by rewrite Nat.sub_0_r, drop_0, firstn_all.
Qed.

(** ** Identical, and empty, sequences of lines *)

Lemma ndiff_identical (L : list pystr) :
  ndiff L L = Some ((λ l, str "  " ++ l) <$> L).
Proof.
  destruct (decide (L = [])) as [->|Hne]; [done|].
  unfold ndiff, Differ_compare. cbn [linejunk].
  set (self := new None L L).
  assert (Hfind : find_longest_match self 0 (length L) 0 (length L)
                  = Some (0, 0, length L)).
  { apply (find_longest_match_identical L (sm_b2j self));
      [|apply new_a|apply new_b|done|apply new_bjunk_None].
    intros x idxs Hx. rewrite <- (new_b None L L). by apply new_b2j_sound. }
  assert (Hlen : length L ≠ 0) by (by destruct L).
  unfold get_opcodes.
  rewrite (get_matching_blocks_whole self (length L));
    [|by unfold self; rewrite new_a|by unfold self; rewrite new_b|done|done].
  simpl. rewrite Nat.ltb_irrefl. simpl.
  destruct (Nat.eqb_spec (length L) 0) as [|_]; [done|]. simpl.
  unfold compare_body. by rewrite dump_all.
Qed.

Lemma find_longest_match_empty_b (a : list pystr) :
  ∃ i j, find_longest_match (new None a []) 0 (length a) 0 0 = Some (i, j, 0).
Proof.
  destruct (find_longest_match_valid (new None a []) 0 (length a) 0 0)
    as ([[i j] k] & Hfind & Hvalid).
  - apply new_b2j_sound.
  - rewrite new_a. lia.
  - rewrite new_b. simpl. lia.
  - destruct Hvalid as (_ & _ & _ & Hk & _).
    exists i, j. rewrite Hfind. repeat f_equal. lia.
Qed.

Lemma find_longest_match_empty_a (b : list pystr) :
  ∃ i j, find_longest_match (new None [] b) 0 0 0 (length b) = Some (i, j, 0).
Proof.
  destruct (find_longest_match_valid (new None [] b) 0 0 0 (length b))
    as ([[i j] k] & Hfind & Hvalid).
  - apply new_b2j_sound.
  - rewrite new_a. simpl. lia.
  - rewrite new_b. lia.
  - destruct Hvalid as (_ & Hk & _).
    exists i, j. rewrite Hfind. repeat f_equal. lia.
Qed.

Lemma ndiff_empty_b (a : list pystr) :
  ndiff a [] = Some ((λ l, str "- " ++ l) <$> a).
Proof.
  unfold ndiff, Differ_compare, get_opcodes. cbn [linejunk].
  destruct (find_longest_match_empty_b a) as (i & j & Hfind).
  rewrite (get_matching_blocks_no_match _ i j)
    by (by rewrite new_a, new_b).
  rewrite new_a, new_b. simpl.
  destruct (Nat.ltb_spec 0 (length a)) as [Hlt|Hge]; simpl.
  - unfold compare_body. by rewrite dump_all.
  - by destruct a; [|simpl in Hge; lia].
Qed.

Lemma ndiff_empty_a (b : list pystr) :
  ndiff [] b = Some ((λ l, str "+ " ++ l) <$> b).
Proof.
  unfold ndiff, Differ_compare, get_opcodes. cbn [linejunk].
  destruct (find_longest_match_empty_a b) as (i & j & Hfind).
  rewrite (get_matching_blocks_no_match _ i j)
    by (by rewrite new_a, new_b).
  rewrite new_a, new_b. simpl.
  destruct (Nat.ltb_spec 0 (length b)) as [Hlt|Hge]; simpl.
  - unfold compare_body. by rewrite dump_all.
  - by destruct b; [|simpl in Hge; lia].
Qed.

(** * Records and counts *)

Lemma count_startswith_fmap (prefix : pystr) (f : pystr → pystr) (c : bool)
    (lines : list pystr) :
  (∀ l, startswith (f l) prefix = c) →
  count_startswith prefix (f <$> lines) = if c then length lines else 0.
Proof.
  intros Hf. unfold count_startswith.
  enough (Hgen : ∀ n, foldl (λ n l, if startswith l prefix then n + 1 else n)
                        n (f <$> lines)
                      = n + (if c then length lines else 0))
    by apply (Hgen 0).
  induction lines as [|l lines IH]; intros n; simpl.
  - destruct c; lia.
  - rewrite IH, Hf. destruct c; lia.
Qed.

Lemma mapM_fmap_Some {X Y Z} (f : Y → option Z) (g : X → Y) (h : X → Z)
    (l : list X) :
  (∀ x, f (g x) = Some (h x)) → mapM f (g <$> l) = Some (h <$> l).
Proof.
  intros Hf. induction l as [|x l IH]; [done|].
  cbn [fmap list_fmap mapM]. rewrite Hf. cbn [mbind option_bind].
  fold (fmap (M:=list) g l). by rewrite IH.
Qed.

Lemma diff_result_tagged (a b lines : list pystr) (tag : pystr)
    (record : pystr → EditRecord) (cp cm ch : bool) :
  ndiff a b = Some ((λ l, tag ++ l) <$> lines) →
  (∀ l, record_of_line (tag ++ l) = Some (record l)) →
  (∀ l, startswith (tag ++ l) (str "+ ") = cp) →
  (∀ l, startswith (tag ++ l) (str "- ") = cm) →
  (∀ l, startswith (tag ++ l) (str "? ") = ch) →
  diff_result a b
  = Some (record <$> lines,
          (if cp then length lines else 0,
           if cm then length lines else 0,
           if ch then length lines else 0)).
Proof.
  intros Hdiff Hrec Hp Hm Hh. unfold diff_result. rewrite Hdiff. simpl.
  rewrite (mapM_fmap_Some _ _ record) by done. simpl.
  unfold added, removed, changed_hints.
  by rewrite (count_startswith_fmap _ (λ l, tag ++ l) cp lines),
    (count_startswith_fmap _ (λ l, tag ++ l) cm lines),
    (count_startswith_fmap _ (λ l, tag ++ l) ch lines).
Qed.

(** C5.  The diff of a sequence of lines with itself has one [Context]
    record for each line, and the counts of added, removed and hint
    lines are zero. *)
Theorem diff_identity (L : list pystr) :
  diff_result L L = Some (Context <$> L, (0, 0, 0)).
Proof.
  by apply (diff_result_tagged L L L (str "  ") Context false false false);
    [apply ndiff_identical|..].
Qed.

(** C6.  The diff of two empty sequences is empty with all counts
    zero; the diff of the empty sequence with the one line "x" is one
    [Insertion] of "x" and no hint; the diff of any sequence with the
    empty one has one [Deletion] for each line and nothing else. *)
Theorem diff_empty_boundary :
  diff_result [] [] = Some ([], (0, 0, 0))
  ∧ diff_result [] [str "x"] = Some ([Insertion (str "x")], (1, 0, 0))
  ∧ ∀ a : list pystr,
      diff_result a [] = Some (Deletion <$> a, (0, length a, 0)).
Proof.
  split; [by vm_compute|]. split; [by vm_compute|]. intros a.
  by apply (diff_result_tagged a [] a (str "- ") Deletion false true false);
    [apply ndiff_empty_b|..].
Qed.

(** C7.  For a = ["a","b","c"] and b = ["a","x","c"] the diff is
    [Context "a"], [Deletion "b"], [Insertion "x"], [Context "c"], with
    no [Hint]: the ratio of matching characters of "b" and "x" is 0,
    below the cutoff 0.75, and so is the upper bound [quick_ratio] that
    the search looks at. *)
Theorem diff_unrelated_lines_no_hint :
  diff_result [str "a"; str "b"; str "c"] [str "a"; str "x"; str "c"]
  = Some ([Context (str "a"); Deletion (str "b"); Insertion (str "x");
           Context (str "c")], (1, 1, 0))
  ∧ ratio (new (Some IS_CHARACTER_JUNK) (str "b") (str "x")) = Some 0%float
  ∧ quick_ratio (new (Some IS_CHARACTER_JUNK) (str "b") (str "x")) = 0%float
  ∧ PrimFloat.ltb 0 0.75 = true.
Proof. repeat split; by vm_compute. Qed.

(** * The window *)

(** C1, on the defect.  With both options on, two files whose one line
    is "Hello  World" are shown and stored for saving as the
    normalised line "hello world": the text of the original line is in
    neither the text widget nor [last_diff_lines]. *)
Theorem compare_shows_normalized_text :
  ∃ gui shown,
    compare sample_files sample_gui = Some (gui, shown)
    ∧ read_lines sample_files (str "a.txt") = inl [str "Hello  World"]
    ∧ last_diff_lines gui = [str "  hello world" ++ [10%N]]
    ∧ last (text gui) = Some (str "  hello world" ++ [10%N], Some (str "ctx"))
    ∧ last_diff_lines gui ≠ [str "  Hello  World" ++ [10%N]].
Proof.
  eexists _, _. split; [by vm_compute|]. repeat split; by vm_compute.
Qed.

Lemma insert_line_last_diff_lines self line :
  last_diff_lines (insert_line self line) = last_diff_lines self.
Proof. unfold insert_line. by repeat case_match. Qed.

(** What [compare] stores and shows, in general: the lines of the diff
    of the normalised sequences. *)
Lemma compare_last_diff_lines files self lines1 lines2 gui shown :
  strip (file1 self) ≠ [] → strip (file2 self) ≠ [] →
  path_exists files (strip (file1 self)) = true →
  path_exists files (strip (file2 self)) = true →
  read_lines files (strip (file1 self)) = inl lines1 →
  read_lines files (strip (file2 self)) = inl lines2 →
  compare files self = Some (gui, shown) →
  ∃ diff,
    ndiff (normalize_lines lines1 (ignore_case self) (ignore_ws self))
          (normalize_lines lines2 (ignore_case self) (ignore_ws self))
    = Some diff
    ∧ last_diff_lines gui = (λ line, line ++ [10%N]) <$> diff.
Proof.
  intros Hp1 Hp2 He1 He2 Hr1 Hr2. unfold compare, read_text.
  rewrite !bool_decide_eq_false_2 by done.
  rewrite He1, He2, Hr1, Hr2. cbn [negb orb].
  destruct (ndiff _ _) as [diff|]; [|done]. simpl.
  intros [= <- _]. exists diff. split; [done|].
  match goal with
  | |- last_diff_lines (set_status (foldl ?f ?g diff) _) = _ =>
      change (last_diff_lines (foldl f g diff)
              = (λ line, line ++ [10%N]) <$> diff);
      assert (Hgen : ∀ g0, last_diff_lines (foldl f g0 diff)
                = last_diff_lines g0 ++ ((λ line, line ++ [10%N]) <$> diff));
      [|by rewrite Hgen]
  end.
  induction diff as [|line diff IH]; intros g0; simpl.
  - by rewrite app_nil_r.
  - rewrite IH. cbn [last_diff_lines set_last_diff_lines].
    by rewrite insert_line_last_diff_lines, <- app_assoc.
Qed.

(** C9, as stated, fails: on a device with room for two characters the
    failed save leaves [out.diff] with the first two characters of the
    diff in place of its earlier content. *)
Lemma save_failure_leaves_partial_file :
  ¬ failed_save_leaves_no_trace (full_disk_write_text 2) sample_diff_gui
      (str "out.diff") sample_disk.
Proof.
  intros Hclean.
  specialize (Hclean {[ str "out.diff" := str "- " ]}
                (str "[Errno 28] No space left on device") eq_refl).
  assert (Hdisk : (save_diff (full_disk_write_text 2) sample_diff_gui
                     (str "out.diff") sample_disk).1.2 !! str "out.diff"
                  = Some (str "- ")) by (by vm_compute).
  rewrite Hclean in Hdisk. by vm_compute in Hdisk.
Qed.

(** C9, amended.  When writing the file fails, [save_diff] leaves the
    window as it was, [last_diff_lines] included, and shows one error
    box; the file system is left as the failed write left it, [fs'];
    saving again, to a sink that can be written, then writes the whole
    diff. *)
Theorem save_failure_keeps_diff {FS : Type}
    (write_text : pystr → pystr → FS → FS * option pystr)
    (self : DiffGUI) (answer : pystr) (fs fs' : FS) (e : pystr) :
  last_diff_lines self ≠ [] → answer ≠ [] →
  write_text answer (join [] (last_diff_lines self)) fs = (fs', Some e) →
  save_diff write_text self answer fs
  = (self, fs', [showerror (str "Save error")
                   (str "Could not save diff" ++ [10; 10]%N ++ e)])
  ∧ ∀ (write_text' : pystr → pystr → FS → FS * option pystr)
      (answer' : pystr) (fs'' : FS),
      answer' ≠ [] →
      write_text' answer' (join [] (last_diff_lines self)) fs' = (fs'', None) →
      save_diff write_text' self answer' fs'
      = (set_status self (str "Saved diff to " ++ answer'), fs'', []).
Proof.
  intros Hlines Hanswer Hwrite. split.
  - unfold save_diff. rewrite !bool_decide_eq_false_2 by done.
    by rewrite Hwrite.
  - intros write_text' answer' fs'' Hanswer' Hwrite'.
    unfold save_diff. rewrite !bool_decide_eq_false_2 by done.
    by rewrite Hwrite'.
Qed.

Lemma save_failure_keeps_diff_witness :
  save_diff (full_disk_write_text 2) sample_diff_gui (str "out.diff")
    sample_disk
  = (sample_diff_gui, {[ str "out.diff" := str "- " ]},
     [showerror (str "Save error")
        (str "Could not save diff" ++ [10; 10]%N
           ++ str "[Errno 28] No space left on device")])
  ∧ save_diff (full_disk_write_text 80) sample_diff_gui (str "out.diff")
      {[ str "out.diff" := str "- " ]}
    = (set_status sample_diff_gui (str "Saved diff to out.diff"),
       {[ str "out.diff" := str "- a" ++ [10%N] ]}, []).
Proof.
  destruct (save_failure_keeps_diff (full_disk_write_text 2) sample_diff_gui
              (str "out.diff") sample_disk {[ str "out.diff" := str "- " ]}
              (str "[Errno 28] No space left on device"))
    as [Hfail Hretry]; [done|done|reflexivity|].
  split; [exact Hfail|].
  apply (Hretry (full_disk_write_text 80) (str "out.diff")); [done|].
  by vm_compute.
Defined.

(** * Matching blocks in general *)

Section pairwise.
Context {X : Type} (R : relation X) `{!Symmetric R}.

Lemma pairwise_app l1 l2 :
  pairwise R (l1 ++ l2)
  ↔ pairwise R l1 ∧ pairwise R l2 ∧ Forall (λ x, Forall (R x) l2) l1.
Proof.
  induction l1 as [|x l1 IH]; simpl.
  - split; [by intros ?; repeat split; try constructor|tauto].
  - rewrite Forall_app, IH, Forall_cons. tauto.
Qed.

Lemma pairwise_Permutation l1 l2 :
  l1 ≡ₚ l2 → pairwise R l1 → pairwise R l2.
Proof.
  induction 1 as [|x l1 l2 Hp IH|x y l|l1 l2 l3 _ IH1 _ IH2]; simpl.
  - done.
  - intros [Hx Hl]. split; [by rewrite <- Hp|by apply IH].
  - intros [[Hyx Hy]%Forall_cons [Hx Hl]]. repeat split; try done.
    constructor; [done|done].
  - intros Hl. by apply IH2, IH1.
Qed.

Lemma pairwise_StronglySorted (R1 R3 : relation X) l :
  (∀ x y, x ∈ l → y ∈ l → R1 x y → R x y → R3 x y) →
  StronglySorted R1 l → pairwise R l → StronglySorted R3 l.
Proof.
  intros Himp Hsorted. induction Hsorted as [|x l Hl IH Hx]; intros Hpw.
  - constructor.
  - destruct Hpw as [Hpx Hpl]. constructor.
    + apply IH; [|done]. intros y z Hy Hz. apply Himp; by right.
    + apply Forall_forall. intros y Hy.
      rewrite Forall_forall in Hx, Hpx.
      apply Himp; [by left|by right|by apply Hx|by apply Hpx].
Qed.
End pairwise.

Global Instance apart_symmetric : Symmetric apart.
Proof. intros r1 r2 [?|?]; [by right|by left]. Qed.

Lemma apart_within s r x : within s r → apart r x → apart s x.
Proof.
  destruct s as [[[??]?]?], r as [[[??]?]?], x as [[[??]?]?].
  unfold within, apart, before. lia.
Qed.

Lemma Match_le_spec (x y : Match) :
  Match_le x y
  ↔ x.1.1 < y.1.1
    ∨ x.1.1 = y.1.1 ∧ (x.1.2 < y.1.2 ∨ x.1.2 = y.1.2 ∧ x.2 ≤ y.2).
Proof.
  destruct x as [[i1 j1] k1], y as [[i2 j2] k2]. unfold Match_le, Match_leb.
  simpl.
  rewrite orb_true_iff, andb_true_iff, orb_true_iff, andb_true_iff.
  rewrite !Nat.ltb_lt, !Nat.eqb_eq, Nat.leb_le. done.
Qed.

Global Instance Match_le_total : Total Match_le.
Proof. intros x y. rewrite !Match_le_spec. lia. Qed.

Global Instance Match_le_transitive : Transitive Match_le.
Proof. intros x y z. rewrite !Match_le_spec. lia. Qed.

Section slices.
Context {X : Type}.
Implicit Types (l : list X).

Lemma slice_full l : slice l 0 (length l) = l.
Proof. unfold slice. by rewrite drop_0, Nat.sub_0_r, firstn_all. Qed.

Lemma slice_empty l lo : slice l lo lo = [].
Proof. unfold slice. by rewrite Nat.sub_diag. Qed.

Lemma slice_app l lo mid hi :
  lo ≤ mid ≤ hi → slice l lo mid ++ slice l mid hi = slice l lo hi.
Proof.
  intros Hm. unfold slice.
  replace (drop mid l) with (drop (mid - lo) (drop lo l))
    by (rewrite drop_drop; f_equal; lia).
  rewrite take_take_drop. f_equal. lia.
Qed.

Lemma lookup_slice l lo hi t :
  slice l lo hi !! t = if decide (t < hi - lo) then l !! (lo + t) else None.
Proof.
  unfold slice. case_decide.
  - by rewrite lookup_take_lt, lookup_drop.
  - apply lookup_take_ge. lia.
Qed.

Lemma slice_cons l lo hi x :
  lo < hi → l !! lo = Some x → slice l lo hi = x :: slice l (lo + 1) hi.
Proof.
  intros Hlo Hx. unfold slice.
  replace (hi - lo) with (Datatypes.S (hi - (lo + 1))) by lia.
  rewrite (drop_S _ _ _ Hx). simpl. by rewrite Nat.add_1_r.
Qed.

Lemma slice_split_at l lo hi i x :
  lo ≤ i < hi → l !! i = Some x →
  slice l lo hi = slice l lo i ++ x :: slice l (i + 1) hi.
Proof.
  intros Hi Hx. rewrite <- (slice_app l lo i hi) by lia.
  by rewrite (slice_cons l i hi x) by (done || lia).
Qed.

Lemma length_slice l lo hi : hi ≤ length l → length (slice l lo hi) = hi - lo.
Proof. intros Hhi. unfold slice. rewrite length_take, length_drop. lia. Qed.
End slices.

Lemma slice_match {X} (a b : list X) i j k :
  i + k ≤ length a → j + k ≤ length b →
  (∀ t, t < k → a !! (i + t) = b !! (j + t)) →
  slice a i (i + k) = slice b j (j + k).
Proof.
  intros Ha Hb Hm. apply list_eq. intros t. rewrite !lookup_slice.
  replace (i + k - i) with k by lia. replace (j + k - j) with k by lia.
  case_decide; [by apply Hm|done].
Qed.

Section queue.
Context {A : Type} `{!EqDecision A, !Countable A}.
Context (self : SequenceMatcher A).
Hypothesis Hsound : b2j_sound self.
Local Abbreviation a := (sm_a self).
Local Abbreviation b := (sm_b self).

Lemma queue_measure_app q1 q2 :
  queue_measure (q1 ++ q2) = queue_measure q1 + queue_measure q2.
Proof. unfold queue_measure. by rewrite fmap_app, sum_list_with_app. Qed.

Lemma queue_measure_cons r q :
  queue_measure (r :: q) = rect_size r + queue_measure q.
Proof. done. Qed.

(** One pass of [while queue]. *)
Lemma blocks_step st :
  blocks_inv a b st → blocks_cond st = Some true →
  ∃ st', blocks_body self st = Some st' ∧ blocks_inv a b st'
         ∧ queue_measure st'.1 < queue_measure st.1.
Proof using Hsound.
  destruct st as [queue blocks]. intros (Hq & Hb & Hpw) Hcond.
  destruct queue as [|[[[alo ahi] blo] bhi] q]; [done|]. clear Hcond.
  simpl in Hq, Hb, Hpw. apply Forall_cons in Hq as [[Hra Hrb] Hq].
  destruct Hpw as [Hr Hpw].
  destruct (find_longest_match_valid self alo ahi blo bhi)
    as ([[i j] k] & Hfind & H1 & H2 & H3 & H4 & Hm); [done|done|done|].
  unfold blocks_body. rewrite Hfind. simpl.
  destruct (Nat.eqb_spec k 0) as [->|Hk]; simpl.
  { eexists; split; [done|]. split; [done|].
    cbn [fst]. rewrite queue_measure_cons. unfold rect_size. lia. }
  set (Ls := if (alo <? i) && (blo <? j) then [(alo, i, blo, j)] else []).
  set (Rs := if (i + k <? ahi) && (j + k <? bhi)
             then [(i + k, ahi, j + k, bhi)] else []).
  eexists; split; [done|].
  match goal with
  | |- blocks_inv _ _ (?q', _) ∧ _ =>
      assert (Hq' : q' = Rs ++ Ls ++ q)
        by (subst Ls Rs; by repeat case_match)
  end.
  rewrite Hq'. clear Hq'.
  assert (HLs : Forall (λ s, within s (alo, ahi, blo, bhi)
                             ∧ inside (length a) (length b) s
                             ∧ before s (rect_of (i, j, k))) Ls).
  { subst Ls. case_match; constructor; [|done].
    unfold within, inside, before, rect_of. lia. }
  assert (HRs : Forall (λ s, within s (alo, ahi, blo, bhi)
                             ∧ inside (length a) (length b) s
                             ∧ before (rect_of (i, j, k)) s) Rs).
  { subst Rs. case_match; constructor; [|done].
    unfold within, inside, before, rect_of. lia. }
  assert (HM : within (rect_of (i, j, k)) (alo, ahi, blo, bhi))
    by (unfold within, rect_of; lia).
  split; [split; [|split]|]; simpl.
  - rewrite !Forall_app. repeat split; [| |done].
    + eapply Forall_impl; [exact HRs|]. by intros ? (_ & ? & _).
    + eapply Forall_impl; [exact HLs|]. by intros ? (_ & ? & _).
  - apply Forall_app. split; [done|]. constructor; [|done].
    unfold good_block. repeat split; try lia. done.
  - rewrite fmap_app. simpl.
    apply (pairwise_Permutation apart
             ((Rs ++ Ls ++ [rect_of (i, j, k)]) ++ (q ++ (rect_of <$> blocks))));
      [solve_Permutation|].
    apply pairwise_app. split; [|split; [done|]].
    + apply pairwise_app. split; [|split].
      * subst Rs. by case_match.
      * apply pairwise_app. split; [|split; [done|]].
        -- subst Ls. by case_match.
        -- eapply Forall_impl; [exact HLs|]. intros s (_ & _ & Hs).
           constructor; [by left|done].
      * eapply Forall_impl; [exact HRs|]. intros s (_ & _ & Hs).
        apply Forall_app. split.
        -- eapply Forall_impl; [exact HLs|]. intros s' (_ & _ & Hs'). right.
           destruct s as [[[??]?]?], s' as [[[??]?]?].
           unfold before, rect_of in *. lia.
        -- constructor; [by right|done].
    + rewrite !Forall_app. repeat split.
      * eapply Forall_impl; [exact HRs|]. intros s (Hs & _).
        eapply Forall_impl; [exact Hr|]. intros x. by apply apart_within.
      * eapply Forall_impl; [exact HLs|]. intros s (Hs & _).
        eapply Forall_impl; [exact Hr|]. intros x. by apply apart_within.
      * constructor; [|done].
        eapply Forall_impl; [exact Hr|]. intros x. by apply apart_within.
  - rewrite !queue_measure_app, queue_measure_cons.
    assert (queue_measure Rs + queue_measure Ls
            < rect_size (alo, ahi, blo, bhi)); [|lia].
    subst Ls Rs. unfold queue_measure.
    destruct (Nat.ltb_spec alo i), (Nat.ltb_spec blo j),
      (Nat.ltb_spec (i + k) ahi), (Nat.ltb_spec (j + k) bhi); simpl; lia.
Qed.

(** The loop ends with an empty queue and blocks that match, no two
    of them side by side. *)
Lemma blocks_loop :
  ∃ blocks,
    while (length a + length b + 1) blocks_cond (blocks_body self)
      ([(0, length a, 0, length b)], [])
    = Some ([], blocks)
    ∧ Forall (good_block a b) blocks
    ∧ pairwise apart (rect_of <$> blocks).
Proof using Hsound.
  destruct (while_inv (blocks_inv a b) (λ st, queue_measure st.1)
              (length a + length b + 1) blocks_cond (blocks_body self)
              ([(0, length a, 0, length b)], []))
    as ([queue blocks] & Hwhile & (_ & Hb & Hpw) & Hcond).
  - repeat split; simpl; try done. repeat constructor; lia.
  - unfold queue_measure. simpl. lia.
  - intros st Hst. eexists; split; [done|]. intros Hc.
    apply blocks_step; [done|]. unfold blocks_cond. by rewrite Hc.
  - exists blocks. injection Hcond as Hcond.
    apply negb_false_iff, bool_decide_eq_true in Hcond.
    simpl in Hcond. subst queue. done.
Qed.
End queue.

Lemma pairwise_fmap {X Y} (R : relation Y) (f : X → Y) (l : list X) :
  pairwise R (f <$> l) ↔ pairwise (λ x y, R (f x) (f y)) l.
Proof.
  induction l as [|x l IH]; [done|]. simpl. by rewrite Forall_fmap, IH.
Qed.

Section chain.
Context {A : Type} `{!EqDecision A, !Countable A}.
Context (a b : list A).

Lemma mono_snoc i j blocks e f ai bj size :
  mono a b i j blocks e f → e ≤ ai → f ≤ bj →
  ai + size ≤ length a → bj + size ≤ length b →
  (∀ t, t < size → a !! (ai + t) = b !! (bj + t)) →
  mono a b i j (blocks ++ [(ai, bj, size)]) (ai + size) (bj + size).
Proof.
  intros Hmono He Hf Ha Hb Hm. revert i j Hmono.
  induction blocks as [|[[i1 j1] k1] blocks IH]; intros i j; simpl.
  - intros [-> ->]. done.
  - intros (? & ? & ? & ? & ? & Hrest). repeat split; try done.
    by apply IH.
Qed.

(** Sorting puts blocks that are apart in the order of [a] and [b]. *)
Lemma sorted_blocks blocks :
  Forall (good_block a b) blocks → pairwise apart (rect_of <$> blocks) →
  Forall (good_block a b) (merge_sort Match_le blocks)
  ∧ StronglySorted (λ x y, before (rect_of x) (rect_of y))
      (merge_sort Match_le blocks).
Proof.
  intros Hgood Hpw.
  pose proof (merge_sort_Permutation Match_le blocks) as Hperm.
  assert (Hgood' : Forall (good_block a b) (merge_sort Match_le blocks))
    by (by rewrite Hperm).
  split; [done|].
  apply (pairwise_StronglySorted
           (λ x y, apart (rect_of x) (rect_of y)) Match_le).
  - intros [[i1 j1] k1] [[i2 j2] k2] Hx Hy Hle [Hbefore|Hafter]; [done|].
    rewrite Forall_forall in Hgood'.
    apply Hgood' in Hx, Hy. apply Match_le_spec in Hle.
    unfold good_block, before, rect_of in *. simpl in *. lia.
  - by apply StronglySorted_merge_sort; apply _.
  - apply pairwise_fmap.
    eapply (pairwise_Permutation apart); [|exact Hpw].
    by rewrite Hperm.
Qed.

(** The loop that collapses adjacent blocks. *)
Lemma collapse_mono rem :
  StronglySorted (λ x y, before (rect_of x) (rect_of y)) rem →
  Forall (good_block a b) rem →
  ∀ i1 j1 k1 acc e f,
    mono a b 0 0 acc e f → e ≤ i1 → f ≤ j1 →
    i1 + k1 ≤ length a → j1 + k1 ≤ length b →
    (∀ t, t < k1 → a !! (i1 + t) = b !! (j1 + t)) →
    Forall (λ y, before (rect_of (i1, j1, k1)) (rect_of y)) rem →
    ∃ i1' j1' k1' acc' e' f',
      foldl (λ st x, collapse_body x st) ((i1, j1, k1), acc) rem
      = ((i1', j1', k1'), acc')
      ∧ mono a b 0 0 acc' e' f' ∧ e' ≤ i1' ∧ f' ≤ j1'
      ∧ i1' + k1' ≤ length a ∧ j1' + k1' ≤ length b
      ∧ (∀ t, t < k1' → a !! (i1' + t) = b !! (j1' + t)).
Proof.
  induction 1 as [|[[i2 j2] k2] rem Hsorted IH Hx];
    intros Hgood i1 j1 k1 acc e f Hacc He Hf Ha Hb Hm Hafter.
  { simpl. by exists i1, j1, k1, acc, e, f. }
  apply Forall_cons in Hgood as [(Hk2 & Ha2 & Hb2 & Hm2) Hgood].
  apply Forall_cons in Hafter as [Hcur Hafter].
  unfold before, rect_of in Hcur.
  cbn [foldl]. unfold collapse_body at 2.
  destruct (Nat.eqb_spec (i1 + k1) i2) as [Hi|Hi],
    (Nat.eqb_spec (j1 + k1) j2) as [Hj|Hj]; cbn [andb].
  - (* adjacent: the block grows *)
    apply (IH Hgood i1 j1 (k1 + k2) acc e f); try done; try lia.
    + intros t Ht. destruct (decide (t < k1)) as [?|?]; [by apply Hm|].
      specialize (Hm2 (t - k1) ltac:(lia)). lookup_eq Hm2.
    + eapply Forall_impl; [exact Hx|].
      intros [[??]?]. unfold before, rect_of. lia.
  - destruct (Nat.eqb_spec k1 0) as [->|Hk1]; cbn [negb].
    + apply (IH Hgood i2 j2 k2 acc e f); try done; try lia.
    + apply (IH Hgood i2 j2 k2 (acc ++ [(i1, j1, k1)]) (i1 + k1) (j1 + k1));
        try done; try lia.
      by apply (mono_snoc 0 0 acc e f).
  - destruct (Nat.eqb_spec k1 0) as [->|Hk1]; cbn [negb].
    + apply (IH Hgood i2 j2 k2 acc e f); try done; try lia.
    + apply (IH Hgood i2 j2 k2 (acc ++ [(i1, j1, k1)]) (i1 + k1) (j1 + k1));
        try done; try lia.
      by apply (mono_snoc 0 0 acc e f).
  - destruct (Nat.eqb_spec k1 0) as [->|Hk1]; cbn [negb].
    + apply (IH Hgood i2 j2 k2 acc e f); try done; try lia.
    + apply (IH Hgood i2 j2 k2 (acc ++ [(i1, j1, k1)]) (i1 + k1) (j1 + k1));
        try done; try lia.
      by apply (mono_snoc 0 0 acc e f).
Qed.

Lemma collapse_adjacent_mono blocks :
  StronglySorted (λ x y, before (rect_of x) (rect_of y)) blocks →
  Forall (good_block a b) blocks →
  mono a b 0 0 (collapse_adjacent (length a) (length b) blocks)
    (length a) (length b).
Proof.
  intros Hsorted Hgood. unfold collapse_adjacent.
  destruct (collapse_mono blocks Hsorted Hgood 0 0 0 [] 0 0)
    as (i1 & j1 & k1 & acc & e & f & -> & Hacc & He & Hf & Ha & Hb & Hm);
    try done; try lia.
  { eapply Forall_impl; [exact Hgood|]. intros [[??]?] _.
    unfold before, rect_of. lia. }
  destruct (Nat.eqb_spec k1 0) as [->|Hk1]; cbn [negb].
  - replace (length a) with (length a + 0) at 2 by lia.
    replace (length b) with (length b + 0) at 2 by lia.
    apply (mono_snoc 0 0 acc e f); try done; try lia.
  - replace (length a) with (length a + 0) at 2 by lia.
    replace (length b) with (length b + 0) at 2 by lia.
    apply (mono_snoc 0 0 _ (i1 + k1) (j1 + k1)); try done; try lia.
    by apply (mono_snoc 0 0 acc e f).
Qed.
End chain.

Section matching_blocks.
Context {A : Type} `{!EqDecision A, !Countable A}.

(** [get_matching_blocks] returns, and its blocks match and go up. *)
Lemma get_matching_blocks_mono (self : SequenceMatcher A) :
  b2j_sound self →
  ∃ blocks,
    get_matching_blocks self = Some blocks
    ∧ mono (sm_a self) (sm_b self) 0 0 blocks
        (length (sm_a self)) (length (sm_b self)).
Proof.
  intros Hsound. unfold get_matching_blocks.
  destruct (blocks_loop self Hsound) as (blocks & -> & Hgood & Hpw).
  simpl. eexists; split; [done|].
  destruct (sorted_blocks (sm_a self) (sm_b self) blocks Hgood Hpw)
    as [Hgood' Hsorted].
  by apply collapse_adjacent_mono.
Qed.
End matching_blocks.

Section opcodes.
Context {A : Type} `{!EqDecision A, !Countable A}.
Context (a b : list A).

Lemma ops_snoc i0 j0 ops i j t i2 j2 :
  ops_ok a b i0 j0 ops i j →
  i ≤ i2 ≤ length a → j ≤ j2 ≤ length b → tag_ok a b t i i2 j j2 →
  ops_ok a b i0 j0 (ops ++ [(t, i, i2, j, j2)]) i2 j2.
Proof.
  intros Hops Hi Hj Ht. revert i0 j0 Hops.
  induction ops as [|[[[[t1 x1] x2] y1] y2] ops IH]; intros i0 j0; simpl.
  - intros [-> ->]. done.
  - intros (? & ? & ? & ? & ? & Hrest). repeat split; try done; try lia.
    by apply IH.
Qed.

Lemma opcodes_fold blocks :
  ∀ i j answer,
    ops_ok a b 0 0 answer i j →
    mono a b i j blocks (length a) (length b) →
    ops_ok a b 0 0
      (foldl (λ st x, opcodes_body x st) (i, j, answer) blocks).2
      (length a) (length b).
Proof.
  induction blocks as [|[[ai bj] size] blocks IH]; intros i j answer Hans.
  { simpl. by intros [<- <-]. }
  intros (Hi & Hj & Ha & Hb & Hm & Hrest). cbn [foldl].
  unfold opcodes_body at 2.
  set (answer1 :=
         if (i <? ai) && (j <? bj) then answer ++ [(replace, i, ai, j, bj)]
         else if i <? ai then answer ++ [(delete, i, ai, j, bj)]
         else if j <? bj then answer ++ [(insert, i, ai, j, bj)]
         else answer).
  assert (Hans1 : ops_ok a b 0 0 answer1 ai bj).
  { subst answer1.
    destruct (Nat.ltb_spec i ai), (Nat.ltb_spec j bj); cbn [andb];
      try (apply (ops_snoc 0 0 answer i j); try done; try lia;
           unfold tag_ok; lia).
    by replace ai with i by lia; replace bj with j by lia. }
  apply IH; [|done].
  destruct (Nat.eqb_spec size 0) as [->|Hsize]; cbn [negb].
  - by rewrite !Nat.add_0_r.
  - apply (ops_snoc 0 0 answer1 ai bj); try done; try lia.
    unfold tag_ok. by apply slice_match.
Qed.
End opcodes.

Section get_opcodes.
Context {A : Type} `{!EqDecision A, !Countable A}.

(** [get_opcodes] returns opcodes that cover both sequences. *)
Lemma get_opcodes_ok (self : SequenceMatcher A) :
  b2j_sound self →
  ∃ ops,
    get_opcodes self = Some ops
    ∧ ops_ok (sm_a self) (sm_b self) 0 0 ops
        (length (sm_a self)) (length (sm_b self)).
Proof.
  intros Hsound. unfold get_opcodes.
  destruct (get_matching_blocks_mono self Hsound) as (blocks & -> & Hmono).
  simpl. eexists; split; [done|]. by apply opcodes_fold.
Qed.

Lemma ratio_is_Some (self : SequenceMatcher A) :
  b2j_sound self → is_Some (ratio self).
Proof.
  intros Hsound. unfold ratio.
  destruct (get_matching_blocks_mono self Hsound) as (blocks & -> & _).
  by eexists.
Qed.

Lemma set_seq2_sound (self : SequenceMatcher A) b : b2j_sound (set_seq2 self b).
Proof.
  unfold set_seq2, b2j_sound.
  pose proof (chain_b_lookup (sm_isjunk self) (sm_autojunk self) b) as Hl.
  destruct (chain_b _ _ b) as [[b2j junk] popular]. simpl in *. done.
Qed.

Lemma set_seq1_sound (self : SequenceMatcher A) a :
  b2j_sound self → b2j_sound (set_seq1 self a).
Proof. done. Qed.

Lemma set_seqs_sound (self : SequenceMatcher A) a b :
  b2j_sound (set_seqs self a b).
Proof. apply set_seq2_sound. Qed.
End get_opcodes.

(** * The diff as an edit script *)

Lemma mapM_app_Some {X Y} (f : X → option Y) l1 l2 k1 k2 :
  mapM f l1 = Some k1 → mapM f l2 = Some k2 →
  mapM f (l1 ++ l2) = Some (k1 ++ k2).
Proof.
  rewrite !mapM_Some. apply Forall2_app.
Qed.

Lemma hints_placed_weaken after_edit records :
  hints_placed false records → hints_placed after_edit records.
Proof. destruct records as [|[] ?]; simpl; try done. by intros [? ?]. Qed.

Lemma hints_placed_app after_edit r1 r2 :
  hints_placed after_edit r1 → hints_placed false r2 →
  hints_placed after_edit (r1 ++ r2).
Proof.
  intros H1 H2. revert after_edit H1.
  induction r1 as [|r r1 IH]; intros after_edit H1.
  - by apply hints_placed_weaken.
  - destruct r; simpl in *; try (by apply IH).
    destruct H1 as [? ?]. split; [done|by apply IH].
Qed.

Lemma hints_placed_no_hint {X} (record : X → EditRecord) (l : list X) :
  (∀ x, is_hint (record x) = false) → hints_placed false (record <$> l).
Proof.
  intros Hrec. generalize false.
  induction l as [|x l IH]; intros after_edit; [done|].
  rewrite fmap_cons. specialize (Hrec x).
  destruct (record x); simpl; try done; apply IH.
Qed.

Lemma carries_nil : carries [] [] [].
Proof. by exists []. Qed.

Lemma carries_app g1 g2 xs1 xs2 ys1 ys2 :
  carries g1 xs1 ys1 → carries g2 xs2 ys2 →
  carries (g1 ++ g2) (xs1 ++ xs2) (ys1 ++ ys2).
Proof.
  intros (r1 & H1 & <- & <- & Hh1) (r2 & H2 & <- & <- & Hh2).
  exists (r1 ++ r2).
  rewrite (mapM_app_Some _ _ _ _ _ H1 H2), !omap_app.
  repeat split; try done. by apply hints_placed_app.
Qed.

Lemma omap_fmap {X Y Z} (f : Y → option Z) (g : X → Y) (l : list X) :
  omap f (g <$> l) = omap (f ∘ g) l.
Proof.
  induction l as [|x l IH]; [done|].
  change (omap f (g <$> x :: l))
    with (match f (g x) with
          | Some y => y :: omap f (g <$> l) | None => omap f (g <$> l) end).
  by rewrite IH.
Qed.

Lemma carries_tagged (tag : pystr) (record : pystr → EditRecord)
    (lines xs ys : list pystr) :
  (∀ l, record_of_line (tag ++ l) = Some (record l)) →
  (∀ l, is_hint (record l) = false) →
  omap (old_line ∘ record) lines = xs →
  omap (new_line ∘ record) lines = ys →
  carries ((λ l, tag ++ l) <$> lines) xs ys.
Proof.
  intros Hrec Hhint <- <-. exists (record <$> lines).
  split; [by apply mapM_fmap_Some|]. rewrite !omap_fmap.
  repeat split; try done. by apply hints_placed_no_hint.
Qed.

Lemma omap_Some_id {X Y} (f : X → option Y) (g : X → Y) (l : list X) :
  (∀ x, f x = Some (g x)) → omap f l = g <$> l.
Proof.
  intros Hf. induction l as [|x l IH]; [done|].
  change (omap f (x :: l))
    with (match f x with Some y => y :: omap f l | None => omap f l end).
  by rewrite Hf, IH.
Qed.

Lemma omap_None {X Y} (f : X → option Y) (l : list X) :
  (∀ x, f x = None) → omap f l = [].
Proof.
  intros Hf. induction l as [|x l IH]; [done|].
  change (omap f (x :: l))
    with (match f x with Some y => y :: omap f l | None => omap f l end).
  by rewrite Hf, IH.
Qed.

Lemma carries_deleted lines :
  carries ((λ l, str "-" ++ str " " ++ l) <$> lines) lines [].
Proof.
  apply (carries_tagged (str "- ") Deletion); [done|done| |].
  - rewrite (omap_Some_id _ id) by done. apply list_fmap_id.
  - by apply omap_None.
Qed.

Lemma carries_inserted lines :
  carries ((λ l, str "+" ++ str " " ++ l) <$> lines) [] lines.
Proof.
  apply (carries_tagged (str "+ ") Insertion); [done|done| |].
  - by apply omap_None.
  - rewrite (omap_Some_id _ id) by done. apply list_fmap_id.
Qed.

Lemma carries_context lines :
  carries ((λ l, str " " ++ str " " ++ l) <$> lines) lines lines.
Proof.
  apply (carries_tagged (str "  ") Context); [done|done| |];
    rewrite (omap_Some_id _ id) by done; apply list_fmap_id.
Qed.

Lemma carries_qformat aline bline atags btags :
  carries (qformat aline bline atags btags) [aline] [bline].
Proof.
  unfold qformat.
  destruct (bool_decide (rstrip (keep_original_ws aline atags) = [])),
    (bool_decide (rstrip (keep_original_ws bline btags) = [])).
  - by exists [Deletion aline; Insertion bline].
  - by eexists [Deletion aline; Insertion bline; Hint _].
  - by eexists [Deletion aline; Hint _; Insertion bline].
  - by eexists [Deletion aline; Hint _; Insertion bline; Hint _].
Qed.

(** ** The search for a pair of close lines *)

Section search.
Context (self : Differ) (a b : list pystr) (alo ahi blo bhi : nat).
Hypothesis Ha : ahi ≤ length a.
Hypothesis Hb : bhi ≤ length b.

Lemma search_body_inv cruncher j bj i st :
  b2j_sound cruncher →
  alo ≤ i < ahi → blo ≤ j < bhi → b !! j = Some bj →
  search_inv a b alo ahi blo bhi st →
  ∃ st', search_body a cruncher j bj i st = Some st'
         ∧ search_inv a b alo ahi blo bhi st'.
Proof.
  intros Hsound Hi Hj Hbj. destruct st as [[best_ratio best] eq].
  intros (H1 & H2 & H3). unfold search_body.
  destruct (lookup_lt_is_Some_2 a i) as [ai Hai]; [lia|].
  rewrite Hai. simpl. case_bool_decide as Heq.
  - subst bj. destruct eq as [[eqi eqj]|]; (eexists; split; [done|]).
    + done.
    + split; [done|split; [done|]]. intros i' j' [= <- <-].
      repeat split; try lia. congruence.
  - destruct (ratio_is_Some (set_seq1 cruncher ai)) as [r Hr]; [done|].
    rewrite Hr. simpl.
    repeat case_match; (eexists; split; [done|]); try done.
    split; [done|split; [|done]].
    intros i' j' [= <- <-]. lia.
Qed.

Lemma search_inv_start :
  search_inv a b alo ahi blo bhi (0.74%float, None, None).
Proof. done. Qed.

Lemma search_loops :
  alo ≤ ahi → blo ≤ bhi →
  ∃ st,
    for_ (range blo bhi)
      (λ j st,
         bj ← b !! j;
         for_ (range alo ahi)
           (search_body a (set_seq2 (new (charjunk self) [] []) bj) j bj) st)
      (0.74%float, None, None)
    = Some st
    ∧ search_inv a b alo ahi blo bhi st.
Proof.
  intros Hlo Hlo'.
  apply (for_range_inv (λ _ st, search_inv a b alo ahi blo bhi st));
    [done|apply search_inv_start|].
  intros j st Hj Hst.
  destruct (lookup_lt_is_Some_2 b j) as [bj Hbj]; [lia|].
  rewrite Hbj. simpl.
  apply (for_range_inv (λ _ st, search_inv a b alo ahi blo bhi st));
    [done|done|].
  intros i st' Hi Hst'.
  apply search_body_inv; try done. apply set_seq2_sound.
Qed.
End search.

(** ** [_plain_replace], [_fancy_helper] and [_fancy_replace] *)

Lemma dump_deleted (x : list pystr) lo hi :
  hi ≤ length x →
  ∃ g, dump (str "-") x lo hi = Some g ∧ carries g (slice x lo hi) [].
Proof.
  intros Hhi. rewrite dump_slice by done. eexists; split; [done|].
  apply carries_deleted.
Qed.

Lemma dump_inserted (x : list pystr) lo hi :
  hi ≤ length x →
  ∃ g, dump (str "+") x lo hi = Some g ∧ carries g [] (slice x lo hi).
Proof.
  intros Hhi. rewrite dump_slice by done. eexists; split; [done|].
  apply carries_inserted.
Qed.

Lemma dump_context (x : list pystr) lo hi :
  hi ≤ length x →
  ∃ g, dump (str " ") x lo hi = Some g
       ∧ carries g (slice x lo hi) (slice x lo hi).
Proof.
  intros Hhi. rewrite dump_slice by done. eexists; split; [done|].
  apply carries_context.
Qed.

Lemma plain_replace_carries (a b : list pystr) alo ahi blo bhi :
  alo < ahi ≤ length a → blo < bhi ≤ length b →
  ∃ g, plain_replace a alo ahi b blo bhi = Some g
       ∧ carries g (slice a alo ahi) (slice b blo bhi).
Proof.
  intros Ha Hb. unfold plain_replace.
  destruct (Nat.ltb_spec alo ahi); [|lia].
  destruct (Nat.ltb_spec blo bhi); [|lia]. cbn [andb].
  destruct (dump_deleted a alo ahi) as (ga & -> & Hga); [lia|].
  destruct (dump_inserted b blo bhi) as (gb & -> & Hgb); [lia|].
  case_match; simpl; (eexists; split; [done|]).
  - rewrite <- (app_nil_l (slice a alo ahi)), <- (app_nil_r (slice b blo bhi)).
    by apply carries_app.
  - rewrite <- (app_nil_r (slice a alo ahi)), <- (app_nil_l (slice b blo bhi)).
    by apply carries_app.
Qed.

Lemma fancy_helper_carries
    (replace_ : list pystr → nat → nat → list pystr → nat → nat
                → option (list pystr))
    (a b : list pystr) alo ahi blo bhi :
  alo ≤ ahi ≤ length a → blo ≤ bhi ≤ length b →
  (alo < ahi → blo < bhi →
   ∃ g, replace_ a alo ahi b blo bhi = Some g
        ∧ carries g (slice a alo ahi) (slice b blo bhi)) →
  ∃ g, fancy_helper replace_ a alo ahi b blo bhi = Some g
       ∧ carries g (slice a alo ahi) (slice b blo bhi).
Proof.
  intros Ha Hb Hrec. unfold fancy_helper.
  destruct (Nat.ltb_spec alo ahi), (Nat.ltb_spec blo bhi).
  - by apply Hrec.
  - replace bhi with blo by lia. rewrite slice_empty.
    apply dump_deleted. lia.
  - replace ahi with alo by lia. rewrite slice_empty.
    apply dump_inserted. lia.
  - replace ahi with alo by lia. replace bhi with blo by lia.
    rewrite !slice_empty. eexists; split; [done|]. apply carries_nil.
Qed.

(** [_fancy_replace] returns, when it may recurse as deep as the block
    of [a] is long, and its lines carry the two blocks. *)
Lemma fancy_replace_carries (self : Differ) (a b : list pystr) depth :
  ∀ alo ahi blo bhi,
    ahi - alo ≤ depth →
    alo < ahi ≤ length a → blo < bhi ≤ length b →
    ∃ g, fancy_replace depth self a alo ahi b blo bhi = Some g
         ∧ carries g (slice a alo ahi) (slice b blo bhi).
Proof.
  induction depth as [|depth IH]; intros alo ahi blo bhi Hdepth Ha Hb; [lia|].
  cbn [fancy_replace].
  destruct (search_loops self a b alo ahi blo bhi)
    as ([[best_ratio best] eq] & -> & Hbest & Hbest_in & Heq_in);
    [lia|lia|lia|lia|].
  cbn [mbind option_bind].
  destruct (PrimFloat.ltb best_ratio 0.75) eqn:Hcut.
  - (* no close pair *)
    destruct eq as [[eqi eqj]|]; cbn [andb].
    + rewrite bool_decide_eq_false_2 by done. cbn [mbind option_bind].
      destruct (Heq_in eqi eqj eq_refl) as (Hi & Hj & Hsame).
      destruct (fancy_helper_carries (fancy_replace depth self)
                  a b alo eqi blo eqj) as (g1 & -> & Hg1); [lia|lia| |].
      { intros ??. apply IH; lia. }
      destruct (lookup_lt_is_Some_2 a eqi) as [aelt Haelt]; [lia|].
      assert (Hbelt : b !! eqj = Some aelt) by congruence.
      rewrite Haelt, Hbelt. cbn [mbind option_bind].
      destruct (fancy_helper_carries (fancy_replace depth self)
                  a b (eqi + 1) ahi (eqj + 1) bhi) as (g2 & -> & Hg2);
        [lia|lia| |].
      { intros ??. apply IH; lia. }
      cbn [mbind option_bind]. eexists; split; [done|].
      rewrite (slice_split_at a alo ahi eqi aelt) by done.
      rewrite (slice_split_at b blo bhi eqj aelt) by done.
      apply carries_app; [done|].
      apply (carries_app [_] _ [_] _ [_]); [|done].
      by exists [Context aelt].
    + rewrite bool_decide_eq_true_2 by done.
      by apply plain_replace_carries.
  - (* a close pair *)
    cbn [andb].
    destruct best as [[best_i best_j]|]; [|by rewrite Hbest in Hcut].
    cbn [mbind option_bind].
    destruct (Hbest_in best_i best_j eq_refl) as (Hi & Hj).
    destruct (fancy_helper_carries (fancy_replace depth self)
                a b alo best_i blo best_j) as (g1 & -> & Hg1); [lia|lia| |].
    { intros ??. apply IH; lia. }
    destruct (lookup_lt_is_Some_2 a best_i) as [aelt Haelt]; [lia|].
    destruct (lookup_lt_is_Some_2 b best_j) as [belt Hbelt]; [lia|].
    rewrite Haelt, Hbelt. cbn [mbind option_bind].
    destruct (get_opcodes_ok (set_seqs (new (charjunk self) [] []) aelt belt))
      as (ops & -> & _); [apply set_seqs_sound|].
    cbn [mbind option_bind].
    destruct (intraline_tags ops) as [atags btags].
    destruct (fancy_helper_carries (fancy_replace depth self)
                a b (best_i + 1) ahi (best_j + 1) bhi) as (g2 & -> & Hg2);
      [lia|lia| |].
    { intros ??. apply IH; lia. }
    cbn [mbind option_bind]. eexists; split; [done|].
    rewrite (slice_split_at a alo ahi best_i aelt) by done.
    rewrite (slice_split_at b blo bhi best_j belt) by done.
    apply carries_app; [done|].
    apply (carries_app _ _ [_] _ [_]); [|done].
    apply carries_qformat.
Qed.

(** ** [Differ.compare] and [ndiff] *)

Lemma compare_fold (self : Differ) (a b : list pystr) ops :
  ∀ i j acc,
    ops_ok a b i j ops (length a) (length b) →
    ∃ g, for_ ops (compare_body self a b) acc = Some (acc ++ g)
         ∧ carries g (slice a i (length a)) (slice b j (length b)).
Proof.
  induction ops as [|[[[[t i1] i2] j1] j2] ops IH]; intros i j acc.
  { intros [-> ->]. exists []. rewrite app_nil_r, !slice_empty.
    split; [done|apply carries_nil]. }
  intros (-> & -> & Hi & Hj & Ht & Hrest). cbn [for_].
  assert (Hop : ∃ g,
             match t with
             | replace => fancy_replace (i2 - i) self a i i2 b j j2
             | delete => dump (str "-") a i i2
             | insert => dump (str "+") b j j2
             | equal => dump (str " ") a i i2
             end = Some g
             ∧ carries g (slice a i i2) (slice b j j2)).
  { destruct t; simpl in Ht.
    - apply fancy_replace_carries; lia.
    - subst j2. rewrite slice_empty. apply dump_deleted. lia.
    - subst i2. rewrite slice_empty. apply dump_inserted. lia.
    - rewrite <- Ht. apply dump_context. lia. }
  destruct Hop as (g1 & Hg1 & Hc1).
  assert (Hstep : compare_body self a b (t, i, i2, j, j2) acc
                  = Some (acc ++ g1))
    by (unfold compare_body; by rewrite Hg1).
  rewrite Hstep. cbn [mbind option_bind].
  destruct (IH i2 j2 (acc ++ g1) Hrest) as (g2 & -> & Hc2).
  exists (g1 ++ g2). rewrite <- app_assoc. split; [done|].
  rewrite <- (slice_app a i i2 (length a)), <- (slice_app b j j2 (length b))
    by lia.
  by apply carries_app.
Qed.

(** [ndiff] returns for all sequences of lines, and its lines carry
    the first sequence and the second. *)
Lemma ndiff_carries (a b : list pystr) :
  ∃ diff, ndiff a b = Some diff ∧ carries diff a b.
Proof.
  unfold ndiff, Differ_compare. cbn [linejunk].
  destruct (get_opcodes_ok (new None a b)) as (ops & -> & Hops);
    [apply new_b2j_sound|].
  rewrite new_a, new_b in Hops. cbn [mbind option_bind].
  destruct (compare_fold (mkDiffer None (Some IS_CHARACTER_JUNK)) a b ops
              0 0 [] Hops) as (g & -> & Hg).
  rewrite !slice_full in Hg. by exists g.
Qed.

(** ** Counts *)

Lemma count_startswith_cons prefix line diff :
  count_startswith prefix (line :: diff)
  = (if startswith line prefix then 1 else 0) + count_startswith prefix diff.
Proof.
  unfold count_startswith. simpl.
  enough (Hgen : ∀ n m, foldl (λ n l, if startswith l prefix then n + 1 else n)
                        (n + m) diff
                      = n + foldl (λ n l, if startswith l prefix then n + 1 else n)
                              m diff).
  { destruct (startswith line prefix); [apply (Hgen 1 0)|done]. }
  induction diff as [|l diff IH]; intros n m; [done|]. simpl.
  destruct (startswith l prefix); [|apply IH].
  rewrite <- Nat.add_assoc. apply IH.
Qed.

Lemma record_of_line_inv line r :
  record_of_line line = Some r →
  startswith line (str "+ ")
  = match r with Insertion _ => true | _ => false end
  ∧ startswith line (str "- ")
    = match r with Deletion _ => true | _ => false end.
Proof.
  unfold record_of_line. intros Hr.
  repeat (case_match; try done); simplify_eq; done.
Qed.

Lemma length_omap_cons {X Y} (f : X → option Y) x l :
  length (omap f (x :: l))
  = (if f x is Some _ then 1 else 0) + length (omap f l).
Proof.
  change (omap f (x :: l))
    with (match f x with Some y => y :: omap f l | None => omap f l end).
  by destruct (f x).
Qed.

(** The lines added and removed account for the difference of the
    lengths. *)
Lemma counts_balance diff records :
  mapM record_of_line diff = Some records →
  added diff + length (omap old_line records)
  = removed diff + length (omap new_line records).
Proof.
  revert records. induction diff as [|line diff IH]; intros records.
  { by intros [= <-]. }
  rewrite mapM_Some. intros Hall.
  apply Forall2_cons_inv_l in Hall as (r & rs & Hr & Hrs & ->).
  apply mapM_Some in Hrs. specialize (IH rs Hrs).
  unfold added, removed in *. rewrite !count_startswith_cons.
  destruct (record_of_line_inv line r Hr) as [-> ->].
  rewrite !length_omap_cons.
  destruct r; cbn [old_line new_line]; lia.
Qed.

(** * The symmetry of the diff *)

Lemma omap_ext_all {X Y} (f g : X → option Y) (l : list X) :
  (∀ x, f x = g x) → omap f l = omap g l.
Proof.
  intros Hfg. induction l as [|x l IH]; [done|].
  change (omap f (x :: l))
    with (match f x with Some y => y :: omap f l | None => omap f l end).
  by rewrite Hfg, IH.
Qed.

Lemma omap_swap_old (records : list EditRecord) :
  omap old_line (swap_record <$> records) = omap new_line records.
Proof.
  rewrite omap_fmap. apply omap_ext_all. by intros [].
Qed.

Lemma omap_swap_new (records : list EditRecord) :
  omap new_line (swap_record <$> records) = omap old_line records.
Proof.
  rewrite omap_fmap. apply omap_ext_all. by intros [].
Qed.

(** [diff(a, b)] returns for all [a] and [b]; its records are an edit
    script from [a] to [b]. *)
Lemma diff_result_edit_script (a b : list pystr) :
  ∃ records n_add n_rem n_hint,
    diff_result a b = Some (records, (n_add, n_rem, n_hint))
    ∧ omap old_line records = a ∧ omap new_line records = b
    ∧ n_add + length a = n_rem + length b.
Proof.
  destruct (ndiff_carries a b)
    as (diff & Hdiff & records & Hrec & Ha & Hb & _).
  exists records, (added diff), (removed diff), (changed_hints diff).
  unfold diff_result. rewrite Hdiff. simpl. rewrite Hrec. simpl.
  repeat split; try done.
  rewrite <- Ha, <- Hb. by apply counts_balance.
Qed.

Lemma pattern_fmap_no_hint {X} (record : X → EditRecord) (l : list X) :
  (∀ x, is_hint (record x) = false) → pattern (record <$> l) = record <$> l.
Proof.
  intros Hrec. unfold pattern. induction l as [|x l IH]; [done|].
  rewrite fmap_cons, filter_cons_True by done. by rewrite IH.
Qed.

Lemma diff_result_identical (L : list pystr) :
  diff_result L L = Some (Context <$> L, (0, 0, 0)).
Proof.
  by apply (diff_result_tagged L L L (str "  ") Context false false false);
    [apply ndiff_identical|..].
Qed.

Lemma diff_result_empty_a (b : list pystr) :
  diff_result [] b = Some (Insertion <$> b, (length b, 0, 0)).
Proof.
  by apply (diff_result_tagged [] b b (str "+ ") Insertion true false false);
    [apply ndiff_empty_a|..].
Qed.

Lemma diff_result_empty_b (a : list pystr) :
  diff_result a [] = Some (Deletion <$> a, (0, length a, 0)).
Proof.
  by apply (diff_result_tagged a [] a (str "- ") Deletion false true false);
    [apply ndiff_empty_b|..].
Qed.



(** * The window, in general *)

Lemma insert_line_chunk self line :
  insert_line self line = set_text self (text self ++ [line_chunk line]).
Proof.
  unfold line_chunk, insert_line, text_insert.
  destruct (startswith line (str "+")); [done|].
  destruct (startswith line (str "-")); [done|].
  destruct (startswith line (str "?")); [done|].
  destruct (startswith line (str "---") || startswith line (str "+++")
            || startswith line (str "@@")); [done|].
  by destruct (startswith line (str " ")).
Qed.

Lemma line_chunk_fst line : (line_chunk line).1 = line.
Proof.
  unfold line_chunk, insert_line, text_insert.
  destruct (startswith line (str "+")); [done|].
  destruct (startswith line (str "-")); [done|].
  destruct (startswith line (str "?")); [done|].
  destruct (startswith line (str "---") || startswith line (str "+++")
            || startswith line (str "@@")); [done|].
  by destruct (startswith line (str " ")).
Qed.

(** The loop of [compare] that inserts the lines of the diff. *)
Lemma insert_lines_fold (diff : list pystr) (self : DiffGUI) :
  foldl (λ self line,
           let out := line ++ [10%N] in
           let self := insert_line self out in
           set_last_diff_lines self (last_diff_lines self ++ [out]))
        self diff
  = mkDiffGUI (file1 self) (file2 self) (ignore_case self) (ignore_ws self)
      (text self ++ ((λ line, line_chunk (line ++ [10%N])) <$> diff))
      (status self)
      (last_diff_lines self ++ ((λ line, line ++ [10%N]) <$> diff)).
Proof.
  revert self. induction diff as [|line diff IH]; intros self.
  - simpl. rewrite !app_nil_r. by destruct self.
  - cbn [foldl]. rewrite IH, insert_line_chunk. simpl.
    by rewrite <- !app_assoc.
Qed.

(** [compare], when both files are read. *)
Lemma compare_read files self lines1 lines2 diff :
  strip (file1 self) ≠ [] → strip (file2 self) ≠ [] →
  path_exists files (strip (file1 self)) = true →
  path_exists files (strip (file2 self)) = true →
  read_lines files (strip (file1 self)) = inl lines1 →
  read_lines files (strip (file2 self)) = inl lines2 →
  ndiff (normalize_lines lines1 (ignore_case self) (ignore_ws self))
        (normalize_lines lines2 (ignore_case self) (ignore_ws self))
  = Some diff →
  compare files self = Some (compared self diff, []).
Proof.
  intros Hp1 Hp2 He1 He2 Hr1 Hr2 Hdiff. unfold compare, read_text.
  rewrite !bool_decide_eq_false_2 by done.
  rewrite He1, He2, Hr1, Hr2. cbn [negb orb]. rewrite Hdiff.
  cbn [mbind option_bind]. rewrite insert_lines_fold. done.
Qed.

(** The ways [compare] ends: with a warning or an error box and the
    window as it was, or with the diff of the normalised lines shown. *)
Lemma compare_cases files self :
  (∃ shown, compare files self = Some (self, shown)
            ∧ shown ≠ [] ∧ length shown ≤ 2)
  ∨ (∃ lines1 lines2 diff,
       read_lines files (strip (file1 self)) = inl lines1
       ∧ read_lines files (strip (file2 self)) = inl lines2
       ∧ ndiff (normalize_lines lines1 (ignore_case self) (ignore_ws self))
               (normalize_lines lines2 (ignore_case self) (ignore_ws self))
         = Some diff
       ∧ compare files self = Some (compared self diff, [])).
Proof.
  destruct (decide (strip (file1 self) = [])) as [Hp1|Hp1].
  { left. unfold compare. rewrite (bool_decide_eq_true_2 _ Hp1).
    eexists; split; [done|]. split; [done|simpl; lia]. }
  destruct (decide (strip (file2 self) = [])) as [Hp2|Hp2].
  { left. unfold compare. rewrite (bool_decide_eq_true_2 _ Hp2), orb_true_r.
    eexists; split; [done|]. split; [done|simpl; lia]. }
  destruct (path_exists files (strip (file1 self))) eqn:He1; cycle 1.
  { left. unfold compare. rewrite !bool_decide_eq_false_2 by done.
    rewrite He1. eexists; split; [done|]. split; [done|simpl; lia]. }
  destruct (path_exists files (strip (file2 self))) eqn:He2; cycle 1.
  { left. unfold compare. rewrite !bool_decide_eq_false_2 by done.
    rewrite He1, He2. eexists; split; [done|]. split; [done|simpl; lia]. }
  destruct (read_lines files (strip (file1 self))) as [lines1|e1] eqn:Hr1;
    cycle 1.
  { left. unfold compare, read_text.
    rewrite !bool_decide_eq_false_2 by done. rewrite He1, He2, Hr1.
    destruct (read_lines files (strip (file2 self)));
      (eexists; split; [done|]; split; [done|simpl; lia]). }
  destruct (read_lines files (strip (file2 self))) as [lines2|e2] eqn:Hr2;
    cycle 1.
  { left. unfold compare, read_text.
    rewrite !bool_decide_eq_false_2 by done. rewrite He1, He2, Hr1, Hr2.
    eexists; split; [done|]. split; [done|simpl; lia]. }
  right.
  destruct (ndiff_carries
              (normalize_lines lines1 (ignore_case self) (ignore_ws self))
              (normalize_lines lines2 (ignore_case self) (ignore_ws self)))
    as (diff & Hdiff & _).
  exists lines1, lines2, diff. repeat split; try done.
  by apply (compare_read files self lines1 lines2).
Qed.

(** What a comparison that shows no message box has gone through. *)
Lemma compare_shown_nil files self gui :
  compare files self = Some (gui, []) →
  strip (file1 self) ≠ [] ∧ strip (file2 self) ≠ []
  ∧ path_exists files (strip (file1 self)) = true
  ∧ path_exists files (strip (file2 self)) = true
  ∧ ∃ lines1 lines2 diff,
      read_lines files (strip (file1 self)) = inl lines1
      ∧ read_lines files (strip (file2 self)) = inl lines2
      ∧ ndiff (normalize_lines lines1 (ignore_case self) (ignore_ws self))
              (normalize_lines lines2 (ignore_case self) (ignore_ws self))
        = Some diff
      ∧ gui = compared self diff.
Proof.
  intros Hc.
  destruct (decide (strip (file1 self) = [])) as [Hp1|Hp1].
  { revert Hc. unfold compare. by rewrite (bool_decide_eq_true_2 _ Hp1). }
  destruct (decide (strip (file2 self) = [])) as [Hp2|Hp2].
  { revert Hc. unfold compare.
    by rewrite (bool_decide_eq_true_2 _ Hp2), orb_true_r. }
  destruct (path_exists files (strip (file1 self))) eqn:He1; cycle 1.
  { revert Hc. unfold compare. rewrite !bool_decide_eq_false_2 by done.
    by rewrite He1. }
  destruct (path_exists files (strip (file2 self))) eqn:He2; cycle 1.
  { revert Hc. unfold compare. rewrite !bool_decide_eq_false_2 by done.
    by rewrite He1, He2. }
  destruct (read_lines files (strip (file1 self))) as [lines1|e1] eqn:Hr1;
    cycle 1.
  { revert Hc. unfold compare, read_text.
    rewrite !bool_decide_eq_false_2 by done. rewrite He1, He2, Hr1.
    by destruct (read_lines files (strip (file2 self))). }
  destruct (read_lines files (strip (file2 self))) as [lines2|e2] eqn:Hr2;
    cycle 1.
  { revert Hc. unfold compare, read_text.
    rewrite !bool_decide_eq_false_2 by done. by rewrite He1, He2, Hr1, Hr2. }
  repeat split; try done.
  destruct (ndiff_carries
              (normalize_lines lines1 (ignore_case self) (ignore_ws self))
              (normalize_lines lines2 (ignore_case self) (ignore_ws self)))
    as (diff & Hdiff & _).
  exists lines1, lines2, diff. repeat split; try done.
  rewrite (compare_read files self lines1 lines2 diff) in Hc by done.
  by simplify_eq.
Qed.

(** * Further properties of the window and the normaliser *)

(** ** [normalize_lines] *)

(** X1.  With [ignore_ws] alone, two lists of lines are normalised to the
    same list exactly when their lines have the same words. *)
Theorem normalize_lines_ws_same_words (lines1 lines2 : list pystr) :
  normalize_lines lines1 false true = normalize_lines lines2 false true
  ↔ split <$> lines1 = split <$> lines2.
Proof.
  rewrite !normalize_lines_map. unfold normalize_line.
  change (map ?f ?l) with (f <$> l). split; intros Heq.
  - apply (f_equal (fmap split)) in Heq.
    rewrite <- !list_fmap_compose in Heq.
    rewrite <- (list_fmap_ext split (split ∘ (λ line, join (str " ") (split line)))
                  lines1),
            <- (list_fmap_ext split (split ∘ (λ line, join (str " ") (split line)))
                  lines2) in Heq; [done|..];
      intros ? s _; simpl; symmetry; apply split_join_words;
      by apply split_from_words.
  - apply (f_equal (fmap (join (str " ")))) in Heq.
    by rewrite <- !list_fmap_compose in Heq.
Qed.

(** X2.  The two options can be applied one after the other, in either
    order, with the result of applying both at once. *)
Theorem normalize_lines_options_commute (lines : list pystr) :
  normalize_lines (normalize_lines lines false true) true false
  = normalize_lines lines true true
  ∧ normalize_lines (normalize_lines lines true false) false true
    = normalize_lines lines true true.
Proof.
  rewrite !normalize_lines_map, !map_map. unfold normalize_line.
  split; [done|]. apply map_ext. intros s. apply collapse_casefold.
Qed.

(** X3.  With [ignore_ws], whatever [ignore_case] is, every normalised line
    is a list of words, none empty and none with white space in it,
    joined by single blanks. *)
Theorem normalize_lines_ws_words (lines : list pystr) (ignore_case : bool) :
  Forall (λ s, ∃ words, Forall is_word words ∧ s = join (str " ") words)
         (normalize_lines lines ignore_case true).
Proof.
  rewrite normalize_lines_map. change (map ?f ?l) with (f <$> l).
  apply Forall_fmap, Forall_forall. intros line _. simpl.
  unfold normalize_line. destruct ignore_case.
  - exists (split (casefold line)). split; [by apply split_from_words|].
    symmetry. apply collapse_casefold.
  - exists (split line). split; [by apply split_from_words|done].
Qed.

(** ** [insert_line] *)

Lemma line_chunk_record line r :
  record_of_line line = Some r →
  line_chunk (line ++ [10%N]) = (line ++ [10%N], Some (tag_of_record r)).
Proof.
  unfold record_of_line. intros Hr.
  repeat (case_match; try done); simplify_eq; done.
Qed.

(** X4.  A line that starts with three dashes or three plus signs, the file
    headers of a unified diff, is coloured as a removed or an added
    line: the branch for headers is reached with ["@@"] only. *)
Theorem insert_line_header_markers (self : DiffGUI) (rest : pystr) :
  insert_line self (str "---" ++ rest)
  = text_insert self (str "---" ++ rest) (Some (str "minus"))
  ∧ insert_line self (str "+++" ++ rest)
    = text_insert self (str "+++" ++ rest) (Some (str "plus"))
  ∧ insert_line self (str "@@" ++ rest)
    = text_insert self (str "@@" ++ rest) (Some (str "meta")).
Proof. done. Qed.


(** ** [compare] *)

Lemma compared_chunks self diff :
  (take 4 (text (compared self diff))) = header_chunks self diff
  ∧ (drop 4 (text (compared self diff))).*1
    = last_diff_lines (compared self diff).
Proof.
  split; [done|]. cbn [compared text last_diff_lines].
  change (drop 4 (header_chunks self diff ++ ?l)) with l.
  rewrite <- list_fmap_compose. apply list_fmap_ext.
  intros ? line _. apply line_chunk_fst.
Qed.



(** X8.  Comparing twice gives the window of the first comparison: the
    result depends on the paths, the options and the files, not on
    what the window showed or stored before. *)
Theorem compare_idempotent (files : Files) (self gui : DiffGUI) :
  compare files self = Some (gui, []) →
  compare files gui = Some (gui, []).
Proof.
  intros (Hp1 & Hp2 & He1 & He2 & lines1 & lines2 & diff & Hr1 & Hr2 & Hdiff
          & ->)%compare_shown_nil.
  by rewrite (compare_read files (compared self diff) lines1 lines2 diff).
Qed.

Lemma compare_idempotent_witness :
  ∃ gui,
    compare sample_files sample_gui = Some (gui, [])
    ∧ compare sample_files gui = Some (gui, []).
Proof.
  eexists. split; [by vm_compute|].
  apply (compare_idempotent sample_files sample_gui). by vm_compute.
Defined.

(** X9.  Two files whose lines are the same once normalised compare as
    equal: every line is shown as a context line, in its normalised
    form, and the status bar counts nothing added, removed or hinted. *)
Theorem compare_equal_after_normalisation (files : Files) (self : DiffGUI)
    (lines1 lines2 : list pystr) :
  strip (file1 self) ≠ [] → strip (file2 self) ≠ [] →
  path_exists files (strip (file1 self)) = true →
  path_exists files (strip (file2 self)) = true →
  read_lines files (strip (file1 self)) = inl lines1 →
  read_lines files (strip (file2 self)) = inl lines2 →
  normalize_lines lines1 (ignore_case self) (ignore_ws self)
  = normalize_lines lines2 (ignore_case self) (ignore_ws self) →
  ∃ gui,
    compare files self = Some (gui, [])
    ∧ status gui = str "Done. Added: 0, Removed: 0, Hints: 0"
    ∧ drop 4 (text gui)
      = (λ line, (str "  " ++ line ++ [10%N], Some (str "ctx")))
          <$> normalize_lines lines1 (ignore_case self) (ignore_ws self)
    ∧ last_diff_lines gui
      = (λ line, str "  " ++ line ++ [10%N])
          <$> normalize_lines lines1 (ignore_case self) (ignore_ws self).
Proof.
  intros Hp1 Hp2 He1 He2 Hr1 Hr2 Hnorm.
  set (norm := normalize_lines lines1 (ignore_case self) (ignore_ws self))
    in *.
  exists (compared self ((λ l, str "  " ++ l) <$> norm)). split.
  { apply (compare_read files self lines1 lines2); try done.
    rewrite <- Hnorm. apply ndiff_identical. }
  cbn [compared status text last_diff_lines].
  change (drop 4 (header_chunks self ?d ++ ?l)) with l.
  unfold added, removed, changed_hints.
  rewrite (count_startswith_fmap _ (λ l, str "  " ++ l) false norm),
    (count_startswith_fmap _ (λ l, str "  " ++ l) false norm),
    (count_startswith_fmap _ (λ l, str "  " ++ l) false norm) by done.
  split; [done|]. by rewrite <- !list_fmap_compose.
Qed.

Lemma compare_equal_after_normalisation_witness :
  ∃ gui,
    compare sample_files sample_gui = Some (gui, [])
    ∧ status gui = str "Done. Added: 0, Removed: 0, Hints: 0"
    ∧ drop 4 (text gui)
      = [(str "  hello world" ++ [10%N], Some (str "ctx"))]
    ∧ last_diff_lines gui = [str "  hello world" ++ [10%N]].
Proof.
  apply (compare_equal_after_normalisation sample_files sample_gui
           [str "Hello  World"] [str "Hello  World"]); by vm_compute.
Defined.

(** X10.  Two files without a line compare without a message, and
    [save_diff] then has nothing to save: it asks for a comparison to
    be run first, and writes nothing. *)
Theorem compare_empty_files_nothing_to_save (files : Files) (self : DiffGUI) :
  strip (file1 self) ≠ [] → strip (file2 self) ≠ [] →
  path_exists files (strip (file1 self)) = true →
  path_exists files (strip (file2 self)) = true →
  read_lines files (strip (file1 self)) = inl [] →
  read_lines files (strip (file2 self)) = inl [] →
  ∃ gui,
    compare files self = Some (gui, [])
    ∧ status gui = str "Done. Added: 0, Removed: 0, Hints: 0"
    ∧ ∀ (FS : Type) (write_text : pystr → pystr → FS → FS * option pystr)
        (answer : pystr) (fs : FS),
        save_diff write_text gui answer fs
        = (gui, fs, [showinfo (str "No diff")
                       (str "Nothing to save. Run a comparison first.")]).
Proof.
  intros Hp1 Hp2 He1 He2 Hr1 Hr2.
  exists (compared self []). split.
  { by apply (compare_read files self [] []). }
  split; [done|]. done.
Qed.

Lemma compare_empty_files_nothing_to_save_witness :
  ∃ gui,
    compare empty_files sample_gui = Some (gui, [])
    ∧ status gui = str "Done. Added: 0, Removed: 0, Hints: 0"
    ∧ ∀ (FS : Type) (write_text : pystr → pystr → FS → FS * option pystr)
        (answer : pystr) (fs : FS),
        save_diff write_text gui answer fs
        = (gui, fs, [showinfo (str "No diff")
                       (str "Nothing to save. Run a comparison first.")]).
Proof.
  apply (compare_empty_files_nothing_to_save empty_files sample_gui);
    by vm_compute.
Defined.

(** X11.  When neither file can be read, both are tried: an error box is
    shown for each, File A first, and the window is left as it was. *)
Theorem compare_reports_each_unreadable_file (files : Files) (self : DiffGUI)
    (e1 e2 : pystr) :
  strip (file1 self) ≠ [] → strip (file2 self) ≠ [] →
  path_exists files (strip (file1 self)) = true →
  path_exists files (strip (file2 self)) = true →
  read_lines files (strip (file1 self)) = inr e1 →
  read_lines files (strip (file2 self)) = inr e2 →
  compare files self
  = Some (self,
          [showerror (str "Read error")
             (str "Could not read " ++ strip (file1 self) ++ [10; 10]%N ++ e1);
           showerror (str "Read error")
             (str "Could not read " ++ strip (file2 self) ++ [10; 10]%N ++ e2)]).
Proof.
  intros Hp1 Hp2 He1 He2 Hr1 Hr2. unfold compare, read_text.
  rewrite !bool_decide_eq_false_2 by done. by rewrite He1, He2, Hr1, Hr2.
Qed.

Lemma compare_reports_each_unreadable_file_witness :
  compare unreadable_files sample_gui
  = Some (sample_gui,
          [showerror (str "Read error")
             (str "Could not read a.txt" ++ [10; 10]%N
                ++ str "[Errno 13] Permission denied: 'a.txt'");
           showerror (str "Read error")
             (str "Could not read b.txt" ++ [10; 10]%N
                ++ str "[Errno 13] Permission denied: 'b.txt'")]).
Proof.
  apply (compare_reports_each_unreadable_file unreadable_files sample_gui
           (str "[Errno 13] Permission denied: 'a.txt'")
           (str "[Errno 13] Permission denied: 'b.txt'")); by vm_compute.
Defined.

(** ** The counts of the status bar *)

Lemma record_of_line_hint line r :
  record_of_line line = Some r → startswith line (str "? ") = is_hint r.
Proof.
  unfold record_of_line. intros Hr.
  repeat (case_match; try done); simplify_eq; done.
Qed.

Lemma hints_bound after_edit diff records :
  mapM record_of_line diff = Some records →
  hints_placed after_edit records →
  changed_hints diff
  ≤ (if after_edit then 1 else 0) + added diff + removed diff.
Proof.
  revert after_edit records.
  induction diff as [|line diff IH]; intros after_edit records.
  { intros [= <-] _. unfold changed_hints, added, removed, count_startswith.
    simpl. lia. }
  rewrite mapM_Some. intros Hall.
  apply Forall2_cons_inv_l in Hall as (r & rs & Hr & Hrs & ->).
  apply mapM_Some in Hrs.
  unfold changed_hints, added, removed in *. rewrite !count_startswith_cons.
  destruct (record_of_line_inv line r Hr) as [-> ->].
  rewrite (record_of_line_hint line r Hr).
  destruct r; cbn [hints_placed is_hint].
  - intros H. specialize (IH false rs Hrs H). simpl in IH. lia.
  - intros H. specialize (IH true rs Hrs H). simpl in IH. lia.
  - intros H. specialize (IH true rs Hrs H). simpl in IH. lia.
  - intros [-> H]. specialize (IH false rs Hrs H). simpl in IH. lia.
Qed.


(** ** [save_diff] *)

(** X13.  [save_diff] changes nothing of the window but the status bar,
    whatever the dialog and the write do, and shows one message box at
    most. *)
Theorem save_diff_frame {FS : Type}
    (write_text : pystr → pystr → FS → FS * option pystr)
    (self : DiffGUI) (answer : pystr) (fs : FS) :
  ∃ gui fs' shown,
    save_diff write_text self answer fs = (gui, fs', shown)
    ∧ set_status gui (status self) = self
    ∧ length shown ≤ 1.
Proof.
  unfold save_diff. destruct self as [f1 f2 ic iw t st lines].
  repeat case_match; simplify_eq; eexists _, _, _;
    (split; [done|]); split; (done || simpl; lia).
Qed.

(** X14.  After [clear], and when the save dialog is cancelled, [save_diff]
    does not call the write at all: window and file system are as
    they were. *)
Theorem save_diff_writes_nothing {FS : Type}
    (write_text : pystr → pystr → FS → FS * option pystr)
    (self : DiffGUI) (answer : pystr) (fs : FS) :
  save_diff write_text (clear self) answer fs
  = (clear self, fs, [showinfo (str "No diff")
                        (str "Nothing to save. Run a comparison first.")])
  ∧ ∃ shown, save_diff write_text self [] fs = (self, fs, shown).
Proof.
  split; [done|]. unfold save_diff. case_bool_decide; by eexists.
Qed.

(** X15.  A comparison, then a save that can be written: the file gets the
    chunks shown under the header, joined, and the status bar names
    the path. *)
Theorem compare_then_save_round_trip {FS : Type} (files : Files)
    (write_text : pystr → pystr → FS → FS * option pystr)
    (self gui : DiffGUI) (answer : pystr) (fs fs' : FS) :
  compare files self = Some (gui, []) →
  last_diff_lines gui ≠ [] → answer ≠ [] →
  write_text answer (join [] (drop 4 (text gui)).*1) fs = (fs', None) →
  save_diff write_text gui answer fs
  = (set_status gui (str "Saved diff to " ++ answer), fs', []).
Proof.
  intros (_ & _ & _ & _ & _ & _ & diff & _ & _ & _ & ->)%compare_shown_nil
         Hlines Hanswer Hwrite.
  rewrite (proj2 (compared_chunks self diff)) in Hwrite.
  unfold save_diff. rewrite !bool_decide_eq_false_2 by done.
  by rewrite Hwrite.
Qed.

Lemma compare_then_save_round_trip_witness :
  ∃ gui,
    compare sample_files sample_gui = Some (gui, [])
    ∧ save_diff sample_write_text gui (str "out.diff") ∅
      = (set_status gui (str "Saved diff to out.diff"),
         {[ str "out.diff" := str "  hello world" ++ [10%N] ]}, []).
Proof.
  eexists. split; [by vm_compute|].
  apply (compare_then_save_round_trip sample_files sample_write_text
           sample_gui); by vm_compute.
Defined.
